(** * AudioCipher decoder: the cipher decoding engine

    A shallow embedding of [decoder.py] (with the sibling entry points
    [audiocipher_decoder.py] and [melody_decoder.py] where they differ)
    and the properties of its scale mapper, melody expander, lexical
    segmenter and search orchestrator.

    Conventions of the embedding:
    - a Python [str] is a [string] of ASCII characters (the alphabets of
      note names and of the lexicon); a single letter (a key of the
      letter-to-note mapping, an element of a candidate tuple) is an
      [ascii];
    - a Python [set] of strings is a [gset string]; the note-to-letters
      dictionary, only ever read with [.get], is a [gmap string (list ascii)];
      a dictionary that is iterated (in insertion order) is an association
      list, [dict];
    - the [dp] table of the segmenter is a list read with [!!] and updated
      with [<[i:=x]>];
    - a Python [int] that the code does not constrain is a [Z];
    - the objects of [music21] (a scale with [pitchFromDegree], the
      enharmonic spelling of a pitch) are parameters of the embedding, with
      [None] for a raised exception;
    - what a run logs and prints is a list of [event]s. *)

From Stdlib Require Import ZArith Ascii List Lia Sorted Permutation.
From Stdlib Require String.
From stdpp Require Import base list gmap sets strings sorting.

(** ** Strings, slices and dictionaries *)

(** The characters of a string. *)
Definition chars (s : string) : list ascii := String.list_ascii_of_string s.

(** [''.join(cs)] for a sequence of single letters. *)
Definition join_chars (cs : list ascii) : string := String.string_of_list_ascii cs.

(** [''.join(words)] *)
Definition join_words (ws : list string) : string := foldr String.append "" ws.

(** [xs[j:i]] for [0 <= j] and [0 <= i]. *)
Definition slice {A} (j i : nat) (xs : list A) : list A := take (i - j) (drop j xs).

(** [s[j:i]] on a [str]. *)
Definition str_slice (j i : nat) (s : string) : string := String.substring j (i - j) s.

(** A dictionary in insertion order: keys are unique, and an assignment to
    a key already present keeps its position. *)
Abbreviation dict K V := (list (K * V)).

Fixpoint dict_get {K V} `{EqDecision K} (d : dict K V) (k : K) : option V :=
  match d with
  | [] => None
  | (k', v) :: d' => if decide (k = k') then Some v else dict_get d' k
  end.

Fixpoint dict_set {K V} `{EqDecision K} (d : dict K V) (k : K) (v : V) : dict K V :=
  match d with
  | [] => [(k, v)]
  | (k', v') :: d' =>
      if decide (k = k') then (k, v) :: d' else (k', v') :: dict_set d' k v
  end.

Definition dict_values {K V} (d : dict K V) : list V := d.*2.

(** [str.upper] on ASCII. *)
Definition upper_char (c : ascii) : ascii :=
  let k := nat_of_ascii c in
  if (97 <=? k)%nat && (k <=? 122)%nat then ascii_of_nat (k - 32) else c.

Definition upper (s : string) : string := join_chars (upper_char <$> chars s).

(** The ASCII characters [str.split] treats as white space. *)
Definition is_space (c : ascii) : bool :=
  let k := nat_of_ascii c in
  ((9 <=? k)%nat && (k <=? 13)%nat) || ((28 <=? k)%nat && (k <=? 32)%nat).

(** [s.split()]: the maximal runs of characters that are not white space. *)
Fixpoint split_chars (cs cur : list ascii) : list string :=
  match cs with
  | [] => match cur with [] => [] | _ => [join_chars cur] end
  | c :: cs' =>
      if is_space c then
        match cur with
        | [] => split_chars cs' []
        | _ => join_chars cur :: split_chars cs' []
        end
      else split_chars cs' (cur ++ [c])
  end.

Definition split (s : string) : list string := split_chars (chars s) [].

(** How a call ends: it returns, an exception leaves it, or the fuel given
    to a [while] loop is used up. *)
Inductive result (A : Type) : Type :=
| Returned (a : A)
| Raised
| OutOfFuel.
Arguments Returned {A} a.
Arguments Raised {A}.
Arguments OutOfFuel {A}.

(** ** The lexicon ([decoder.py], [build_prefix_set] and [main]) *)

(** [word[:i] for i in range(1, len(word))] *)
Definition proper_prefixes (word : string) : list string :=
  (λ i, String.substring 0 i word) <$> seq 1 (String.length word - 1).

Definition build_prefix_set (words : gset string) : gset string :=
  set_fold (λ word prefixes, list_to_set (proper_prefixes word) ∪ prefixes) ∅ words.

(** [max((len(word) for word in combined_words), default=0)] *)
Definition max_word_length (combined_words : gset string) : Z :=
  set_fold (λ word acc, Z.max (Z.of_nat (String.length word)) acc) 0%Z combined_words.

Definition valid_single_letter_words : gset string := {[ "a"; "i" ]}.

(** The loop of [is_valid_phrase]. *)
Fixpoint is_valid_phrase_loop (phrase : list string) (all_names english_words : gset string)
    : bool :=
  match phrase with
  | [] => true
  | word :: rest =>
      if (String.length word =? 1)%nat && negb (bool_decide (word ∈ valid_single_letter_words))
      then false
      else if negb (bool_decide (word ∈ english_words) || bool_decide (word ∈ all_names))
      then false
      else is_valid_phrase_loop rest all_names english_words
  end.

Definition is_valid_phrase (phrase : list string) (all_names english_words : gset string)
    : bool :=
  match phrase with
  | [] => false
  | _ => is_valid_phrase_loop phrase all_names english_words
  end.

(** ** The scale mapper ([create_letter_note_mapping], [reverse_mapping]) *)

(** A [music21] scale, as far as the decoder uses it: [pitchFromDegree]
    gives the name of the pitch of a degree, or raises. *)
Record Scale : Type := { pitchFromDegree : nat → option string }.

(** [string.ascii_lowercase] *)
Definition ascii_lowercase : list ascii := chars "abcdefghijklmnopqrstuvwxyz".

Definition degrees : list nat := seq 1 7.
Definition degree_count : nat := length degrees.

(** The [while len(mapping) < 26] loop. An exception of [pitchFromDegree] is
    caught and makes the function return the empty dictionary; an index
    outside [letters] would raise. *)
Fixpoint mapping_loop (fuel : nat) (sc : Scale) (mapping : dict ascii string) (idx : nat)
    : result (dict ascii string) :=
  if (length mapping <? 26)%nat then
    match fuel with
    | 0 => OutOfFuel
    | S fuel' =>
        match degrees !! (idx mod degree_count) with
        | None => Raised
        | Some degree =>
            match pitchFromDegree sc degree with
            | None => Returned []
            | Some pitch_name =>
                match ascii_lowercase !! idx with
                | None => Raised
                | Some letter =>
                    mapping_loop fuel' sc (dict_set mapping letter pitch_name) (idx + 1)
                end
            end
        end
    end
  else Returned mapping.

Definition create_letter_note_mapping (sc : Scale) : result (dict ascii string) :=
  mapping_loop 26 sc [] 0.

(** Body of the loop of [reverse_mapping]. *)
Definition reverse_step (note_to_letters : gmap string (list ascii))
    (item : ascii * string) : gmap string (list ascii) :=
  let '(letter, pitch_name) := item in
  let note_to_letters :=
    match note_to_letters !! pitch_name with
    | None => <[pitch_name := []]> note_to_letters
    | Some _ => note_to_letters
    end in
  <[pitch_name := default [] (note_to_letters !! pitch_name) ++ [letter]]> note_to_letters.

Definition reverse_mapping (mapping : dict ascii string) : gmap string (list ascii) :=
  foldl reverse_step ∅ mapping.

(** The letter-group sizes of an inverse mapping, one per key. *)
Definition group_sizes (note_to_letters : gmap string (list ascii)) : list nat :=
  (λ kv, length kv.2) <$> map_to_list note_to_letters.

(** ** The melody expander ([decode_melody]) *)

(** The letters of one note: the direct lookup and, when that is empty, the
    lookup of the enharmonic spelling [pitch.Pitch(n).getEnharmonic().name]
    (an exception there leaves the letters empty). *)
Definition letters_of_note (enharmonic : string → option string)
    (note_to_letters : gmap string (list ascii)) (n : string) : list ascii :=
  match default [] (note_to_letters !! n) with
  | [] =>
      match enharmonic n with
      | Some enharmonic_name => default [] (note_to_letters !! enharmonic_name)
      | None => []
      end
  | letters => letters
  end.

(** The loop over the melody: [None] when it leaves with [return []]. *)
Fixpoint collect_letters (enharmonic : string → option string)
    (note_to_letters : gmap string (list ascii)) (melody : list string)
    (possible_letters : list (list ascii)) : option (list (list ascii)) :=
  match melody with
  | [] => Some possible_letters
  | n :: melody' =>
      match letters_of_note enharmonic note_to_letters n with
      | [] => None
      | letters =>
          collect_letters enharmonic note_to_letters melody' (possible_letters ++ [letters])
      end
  end.

(** [itertools.product] of the pools, in the order it yields its tuples:
    the last position advances fastest. *)
Fixpoint product {A} (pools : list (list A)) : list (list A) :=
  match pools with
  | [] => [[]]
  | pool :: pools' => flat_map (λ x, (x ::.) <$> product pools') pool
  end.

(** The sequence [decode_melody] returns: the list [[]] or the tuples of
    the product. The product of non-empty pools is not empty, so the
    sequence is empty (and falsy for the caller) only on the first path. *)
Definition decode_melody (enharmonic : string → option string)
    (note_to_letters : gmap string (list ascii)) (melody : list string)
    : list (list ascii) :=
  match collect_letters enharmonic note_to_letters melody [] with
  | None => []
  | Some possible_letters => product possible_letters
  end.

(** The letter list of each position of the melody. *)
Definition letter_pools (enharmonic : string → option string)
    (note_to_letters : gmap string (list ascii)) (melody : list string) : list (list ascii) :=
  letters_of_note enharmonic note_to_letters <$> melody.

(** What the expander is to deliver, said of the two lookups alone and
    without the loop. A name has no entry when the dictionary has no list
    for it, or an empty one. *)
Definition no_entry (note_to_letters : gmap string (list ascii)) (name : string) : Prop :=
  note_to_letters !! name = None ∨ note_to_letters !! name = Some [].

(** [letters] is the letter list of the note [n]: a list that is not
    empty, found under the name of the note or, when the note has no entry,
    under the name of its enharmonic spelling. *)
Definition note_letters (enharmonic : string → option string)
    (note_to_letters : gmap string (list ascii)) (n : string) (letters : list ascii) : Prop :=
  letters ≠ [] ∧
  (note_to_letters !! n = Some letters ∨
   (no_entry note_to_letters n ∧
    ∃ name, enharmonic n = Some name ∧ note_to_letters !! name = Some letters)).

(** The note [n] has no letters: it has no entry, and either it has no
    enharmonic spelling or that spelling has no entry. *)
Definition unresolvable (enharmonic : string → option string)
    (note_to_letters : gmap string (list ascii)) (n : string) : Prop :=
  no_entry note_to_letters n ∧
  (enharmonic n = None ∨ ∃ name, enharmonic n = Some name ∧ no_entry note_to_letters name).

(** Alphabetical order of letters and the order it induces on tuples. *)
Definition letter_lt (a b : ascii) : Prop := (nat_of_ascii a < nat_of_ascii b)%nat.

Fixpoint alphabetical (letters : list ascii) : bool :=
  match letters with
  | a :: ((b :: _) as rest) => (nat_of_ascii a <? nat_of_ascii b)%nat && alphabetical rest
  | _ => true
  end.

Inductive lex_lt : list ascii → list ascii → Prop :=
| lex_lt_nil b bs : lex_lt [] (b :: bs)
| lex_lt_head a b as' bs : letter_lt a b → lex_lt (a :: as') (b :: bs)
| lex_lt_tail a as' bs : lex_lt as' bs → lex_lt (a :: as') (a :: bs).

(** ** The lexical segmenter ([segment_into_words]) *)

(** The table [dp]: entry [i] is [None] while no segmentation of the prefix
    of length [i] was found, and the phrase kept for it otherwise. *)
Abbreviation table := (list (option (list string))).

(** Body of the inner loop, for one [j]:
<<
    if dp[j] is not None:
        word = ''.join(decoded_chars[j:i])
        if word in words_set:
            if dp[i] is None or len(dp[j]) + 1 < len(dp[i]):
                dp[i] = dp[j] + [word]
        elif word in prefixes_set:
            continue
>>
    The indices read are inside the table ([j < i <= n]). *)
Definition inner_step (decoded_chars : list ascii) (words_set prefixes_set : gset string)
    (i : nat) (dp : table) (j : nat) : table :=
  match dp !! j with
  | Some (Some dpj) =>
      let word := join_chars (slice j i decoded_chars) in
      if bool_decide (word ∈ words_set) then
        match dp !! i with
        | Some (Some dpi) =>
            if (length dpj + 1 <? length dpi)%nat
            then <[i := Some (dpj ++ [word])]> dp
            else dp
        | _ => <[i := Some (dpj ++ [word])]> dp
        end
      else if bool_decide (word ∈ prefixes_set) then dp
      else dp
  | _ => dp
  end.

(** [range(max(0, i - max_word_length), i)] *)
Definition window (i : nat) (max_word_length : Z) : list nat :=
  let lo := Z.to_nat (Z.max 0 (Z.of_nat i - max_word_length)) in
  seq lo (i - lo).

(** Body of the outer loop, for one [i]. *)
Definition outer_step (decoded_chars : list ascii) (words_set prefixes_set : gset string)
    (max_word_length : Z) (dp : table) (i : nat) : table :=
  foldl (inner_step decoded_chars words_set prefixes_set i) dp (window i max_word_length).

(** The table after the outer loop has run for [i = 1 .. m]. *)
Definition run_table (decoded_chars : list ascii) (words_set prefixes_set : gset string)
    (max_word_length : Z) (m : nat) : table :=
  let n := length decoded_chars in
  let dp := <[0 := Some []]> (replicate (n + 1) None) in
  foldl (outer_step decoded_chars words_set prefixes_set max_word_length) dp (seq 1 m).

Definition segment_into_words (decoded_chars : list ascii) (words_set prefixes_set : gset string)
    (max_word_length : Z) : option (list string) :=
  let n := length decoded_chars in
  default None (run_table decoded_chars words_set prefixes_set max_word_length n !! n).

(** A decomposition of [s] into members of [W]. *)
Definition is_segmentation (W : gset string) (ws : list string) (s : list ascii) : Prop :=
  Forall (λ w, w ∈ W) ws ∧ join_words ws = join_chars s.

(** The invariants of the table: every entry is a segmentation of its
    prefix, and the entries up to [m] are at least as short as any
    segmentation of their prefix. *)
Definition sound_table (s : list ascii) (W : gset string) (dp : table) : Prop :=
  ∀ k p, dp !! k = Some (Some p) → is_segmentation W p (take k s).

Definition optimal_upto (s : list ascii) (W : gset string) (m : nat) (dp : table) : Prop :=
  ∀ k ws, k ≤ m → is_segmentation W ws (take k s) →
    ∃ p, dp !! k = Some (Some p) ∧ length p ≤ length ws.

(** [max_word_length] is at least the length of every member of [W]. *)
Definition covers (W : gset string) (max_word_length : Z) : Prop :=
  ∀ w, w ∈ W → (Z.of_nat (String.length w) ≤ max_word_length)%Z.

(** *** The segmenter of [melody_decoder.py]: no prefix set, two word sets *)

Module MelodyDecoder.

(** Body of the inner loop, for one [j]:
<<
    word = s[j:i]
    if word in english_words or word in all_names:
        if dp[j] is not None:
            if dp[i] is None or len(dp[j]) + 1 < len(dp[i]):
                dp[i] = dp[j] + [word]
>> *)
Definition inner_step (s : string) (english_words all_names : gset string)
    (i : nat) (dp : table) (j : nat) : table :=
  let word := str_slice j i s in
  if bool_decide (word ∈ english_words) || bool_decide (word ∈ all_names) then
    match dp !! j with
    | Some (Some dpj) =>
        match dp !! i with
        | Some (Some dpi) =>
            if (length dpj + 1 <? length dpi)%nat
            then <[i := Some (dpj ++ [word])]> dp
            else dp
        | _ => <[i := Some (dpj ++ [word])]> dp
        end
    | _ => dp
    end
  else dp.

Definition outer_step (s : string) (english_words all_names : gset string)
    (max_word_length : Z) (dp : table) (i : nat) : table :=
  foldl (inner_step s english_words all_names i) dp (window i max_word_length).

Definition segment_into_words (s : string) (english_words all_names : gset string)
    (max_word_length : Z) : option (list string) :=
  let n := String.length s in
  let dp := <[0 := Some []]> (replicate (n + 1) None) in
  default None
    (foldl (outer_step s english_words all_names max_word_length) dp (seq 1 n) !! n).

End MelodyDecoder.

(** ** The search orchestrator ([process_root_mode],
    [decode_tone_row_parallel], [main]) *)

Record ResultRecord : Type := {
  phrase : string;
  decoded_root_note : string;
  decoded_scale : string;
  num_words : nat
}.

(** A work item: the root, the name of the mode and the scale class of
    [music21], whose constructor may raise. *)
Definition root_mode : Type := string * string * (string → option Scale).

(** What a run writes: the messages it logs and the lines it prints. *)
Inductive event : Type :=
| ErrorNoWords                              (* No words or names loaded. ... *)
| ErrorInvalidNote (n : string)             (* Invalid note name: 'n'. ... *)
| ErrorInvalidEnharmonic (name : string)    (* Invalid note name after enharmonic conversion: ... *)
| InfoStarting (combinations : nat)         (* Starting decoding with k root-mode combinations. *)
| InfoTotal (found : nat)                   (* Total valid decoded phrases found: k *)
| InfoBestPhrases                           (* Best Phrases with the Fewest Number of Words: *)
| PrintPhrase (text root scale : string)    (* Phrase: ..., Decoded in: root scale *)
| InfoNoPhrases.                            (* No valid English phrases found for the given tone row. *)

(** [' '.join(phrase)] *)
Definition phrase_text (words : list string) : string := String.concat " " words.

(** Body of the loop over the decoded combinations. *)
Definition candidate_step (decode_root decode_mode_name : string)
    (words_set prefixes_set : gset string) (max_word_length : Z)
    (all_names english_words : gset string)
    (results : list ResultRecord) (decoded_chars : list ascii) : list ResultRecord :=
  match segment_into_words decoded_chars words_set prefixes_set max_word_length with
  | Some ((_ :: _) as words) =>
      if is_valid_phrase words all_names english_words then
        results ++ [ {| phrase := phrase_text words;
                        decoded_root_note := decode_root;
                        decoded_scale := decode_mode_name;
                        num_words := length words |} ]
      else results
  | _ => results
  end.

(** One work item. Every exception is caught and gives no results. *)
Definition process_root_mode (enharmonic : string → option string)
    (root_mode_tuple : root_mode) (melody_notes : list string)
    (words_set prefixes_set : gset string) (max_word_length : Z)
    (all_names english_words : gset string) : list ResultRecord :=
  let '(decode_root, decode_mode_name, decode_mode_class) := root_mode_tuple in
  match decode_mode_class decode_root with
  | None => []
  | Some decode_sc =>
      match create_letter_note_mapping decode_sc with
      | Returned [] => []
      | Returned mapping =>
          let note_letter_map := reverse_mapping mapping in
          match decode_melody enharmonic note_letter_map melody_notes with
          | [] => []
          | decoded_combinations =>
              foldl (candidate_step decode_root decode_mode_name words_set prefixes_set
                       max_word_length all_names english_words)
                    [] decoded_combinations
          end
      | _ => []
      end
  end.

Definition valid_note_names : gset string :=
  {[ "C"; "C#"; "D"; "D#"; "E"; "F"; "F#"; "G"; "G#"; "A"; "A#"; "B" ]}.

(** The validation loop of [decode_tone_row_parallel]: the notes with the
    enharmonic replacements made, or the error that ends the run. *)
Fixpoint validate_notes (enharmonic : string → option string) (melody_notes : list string)
    : event + list string :=
  match melody_notes with
  | [] => inr []
  | n :: rest =>
      let continue (n' : string) :=
        match validate_notes enharmonic rest with
        | inl e => inl e
        | inr rest' => inr (n' :: rest')
        end in
      if bool_decide (n ∈ valid_note_names) then continue n
      else
        match enharmonic n with
        | Some enharmonic_name =>
            if bool_decide (enharmonic_name ∈ valid_note_names)
            then continue enharmonic_name
            else inl (ErrorInvalidEnharmonic enharmonic_name)
        | None => inl (ErrorInvalidNote n)
        end
  end.

(** Body of the loop that removes duplicates, keyed by the phrase. *)
Definition unique_step (unique_results : dict string ResultRecord) (r : ResultRecord)
    : dict string ResultRecord :=
  let key := phrase r in
  match dict_get unique_results key with
  | None => dict_set unique_results key r
  | Some kept =>
      if (num_words r <? num_words kept)%nat
      then dict_set unique_results key r
      else unique_results
  end.

(** [sorted(rs, key=lambda x: x['phrase'])]: a stable sort by the code
    points of the phrase. *)
Fixpoint insert_by_phrase (r : ResultRecord) (rs : list ResultRecord) : list ResultRecord :=
  match rs with
  | [] => [r]
  | r' :: rs' =>
      if String.leb (phrase r) (phrase r') then r :: rs
      else r' :: insert_by_phrase r rs'
  end.

Definition sorted_by_phrase (rs : list ResultRecord) : list ResultRecord :=
  foldr insert_by_phrase [] rs.

Definition print_phrase (r : ResultRecord) : event :=
  PrintPhrase (phrase r) (decoded_root_note r) (decoded_scale r).

(** The report of [decoder.py]: from the flattened results to the phrases
    printed. *)
Definition best_phrases (flat_results : list ResultRecord) : list ResultRecord :=
  sorted_by_phrase (dict_values (foldl unique_step [] flat_results)).

Definition report (flat_results : list ResultRecord) : list event :=
  match foldl unique_step [] flat_results with
  | [] => [InfoNoPhrases]
  | _ => InfoBestPhrases :: (print_phrase <$> best_phrases flat_results)
  end.

(** [decode_tone_row_parallel]. The pool maps [process_root_mode] over the
    work items and returns their results in the order of the items. The
    summary of single words that ends the function is not modelled. *)
Definition decode_tone_row_parallel (enharmonic : string → option string)
    (tone_row : string) (root_modes : list root_mode)
    (words_set prefixes_set : gset string) (max_word_length : Z)
    (all_names english_words : gset string) : list event :=
  let melody_notes := upper <$> split tone_row in
  match validate_notes enharmonic melody_notes with
  | inl e => [e]
  | inr melody_notes =>
      let all_results :=
        (λ rm, process_root_mode enharmonic rm melody_notes words_set prefixes_set
                 max_word_length all_names english_words) <$> root_modes in
      let flat_results := concat all_results in
      InfoStarting (length root_modes) :: InfoTotal (length flat_results)
        :: report flat_results
  end.

Definition root_notes : list string :=
  [ "C"; "C#"; "D"; "D#"; "E"; "F"; "F#"; "G"; "G#"; "A"; "A#"; "B" ].

(** The work items of [main]: for each root, each mode of the catalog. *)
Definition all_root_modes (modes : dict string (string → option Scale)) : list root_mode :=
  root ← root_notes; (λ m : string * (string → option Scale), (root, m.1, m.2)) <$> modes.

(** What [main] does for one MIDI file once its tone row is extracted and
    the two word lists are loaded. *)
Definition main_for_tone_row (enharmonic : string → option string)
    (modes : dict string (string → option Scale))
    (tone_row : string) (english_words all_names : gset string) : list event :=
  if bool_decide (english_words = ∅) && bool_decide (all_names = ∅) then [ErrorNoWords]
  else
    let combined_words := english_words ∪ all_names in
    let prefixes_set := build_prefix_set combined_words in
    let max_word_length := max_word_length combined_words in
    decode_tone_row_parallel enharmonic tone_row (all_root_modes modes)
      english_words prefixes_set max_word_length all_names english_words.

(** A run that ended with an error before the work items were dispatched. *)
Definition is_error (e : event) : bool :=
  match e with
  | ErrorNoWords | ErrorInvalidNote _ | ErrorInvalidEnharmonic _ => true
  | _ => false
  end.

Definition dispatched (run : list event) : Prop := ∃ k, InfoStarting k ∈ run.

Definition aborted (run : list event) : Prop :=
  (∃ e, e ∈ run ∧ is_error e = true) ∧ ¬ dispatched run.

(** A record whose phrase is made of members of [W]. *)
Definition from_words (W : gset string) (r : ResultRecord) : Prop :=
  ∃ ws, ws ≠ [] ∧ Forall (λ w, w ∈ W) ws ∧ phrase r = phrase_text ws.

(** *** The report of [audiocipher_decoder.py] *)

Module AudiocipherDecoder.

Definition result_key : Type := string * string * string.

(** Duplicates are keyed by phrase, root and scale. *)
Definition unique_step (unique_results : dict result_key ResultRecord) (r : ResultRecord)
    : dict result_key ResultRecord :=
  let key := (phrase r, decoded_root_note r, decoded_scale r) in
  match dict_get unique_results key with
  | None => dict_set unique_results key r
  | Some kept =>
      if (num_words r <? num_words kept)%nat
      then dict_set unique_results key r
      else unique_results
  end.

(** [min(r['num_words'] for r in unique_results.values())] of a non-empty
    collection. *)
Definition min_num_words (r : ResultRecord) (rs : list ResultRecord) : nat :=
  foldl (λ m r', Nat.min m (num_words r')) (num_words r) rs.

Definition best_phrases (flat_results : list ResultRecord) : list ResultRecord :=
  match dict_values (foldl unique_step [] flat_results) with
  | [] => []
  | r :: rs =>
      let min_num_words := min_num_words r rs in
      filter (λ r', num_words r' = min_num_words) (r :: rs)
  end.

Definition report (flat_results : list ResultRecord) : list event :=
  match foldl unique_step [] flat_results with
  | [] => [InfoNoPhrases]
  | _ => InfoBestPhrases :: (print_phrase <$> best_phrases flat_results)
  end.

End AudiocipherDecoder.

(** ** A scale and an enharmonic table for the examples *)

(** The scale whose degrees [1 .. 7] have the given pitch names (asking for
    a degree beyond the names raises). *)
Definition scale_of_names (names : list string) : Scale :=
  {| pitchFromDegree := λ degree, names !! (degree - 1) |}.

(** The pitches of [music21]'s [MajorScale('C')]. *)
Definition c_major : Scale := scale_of_names [ "C"; "D"; "E"; "F"; "G"; "A"; "B" ].

(** [MajorScale], at the one root the examples build it for. *)
Definition MajorScale (root : string) : option Scale :=
  if decide (root = "C") then Some c_major else None.

(** [pitch.Pitch(n).getEnharmonic().name] at the spellings with one
    accidental; the examples ask for these and for names that are no pitch,
    for which [pitch.Pitch] raises. *)
Definition enharmonic_name (n : string) : option string :=
  dict_get
    [ ("C#", "D-"); ("D#", "E-"); ("F#", "G-"); ("G#", "A-"); ("A#", "B-");
      ("D-", "C#"); ("E-", "D#"); ("G-", "F#"); ("A-", "G#"); ("B-", "A#");
      ("E#", "F"); ("B#", "C"); ("F-", "E"); ("C-", "B") ] n.

(** The inverse mapping of C major. *)
Definition c_major_letters : gmap string (list ascii) :=
  match create_letter_note_mapping c_major with
  | Returned mapping => reverse_mapping mapping
  | _ => ∅
  end.

(** ** Tactics *)

(** Evaluates a [filter] by pitch name over an explicit list, one element
    at a time, with the equalities and inequalities of names at hand. *)
Ltac filter_by_name :=
  repeat first [ rewrite filter_cons_True by (simpl; congruence)
               | rewrite filter_cons_False by (simpl; congruence) ];
  rewrite filter_nil.

(** ** The lexicon loaders ([load_word_list], [load_name_list]) *)

(** [str.lower] on ASCII. *)
Definition lower_char (c : ascii) : ascii :=
  let k := nat_of_ascii c in
  if (65 <=? k)%nat && (k <=? 90)%nat then ascii_of_nat (k + 32) else c.

Definition lower (s : string) : string := join_chars (lower_char <$> chars s).

(** [s.strip()]: without the white space at both ends. *)
Fixpoint lstrip_chars (cs : list ascii) : list ascii :=
  match cs with
  | c :: cs' => if is_space c then lstrip_chars cs' else cs
  | [] => []
  end.

Definition strip (s : string) : string :=
  join_chars (reverse (lstrip_chars (reverse (lstrip_chars (chars s))))).

(** Body of the loop over the lines of the file:
<<
    word = line.strip().lower()
    if word and (len(word) > 1 or word in valid_single_letter_words):
        words.add(word)
>> *)
Definition load_step (words : gset string) (line : string) : gset string :=
  let word := lower (strip line) in
  if negb (bool_decide (word = "")) &&
     ((1 <? String.length word)%nat || bool_decide (word ∈ valid_single_letter_words))
  then {[ word ]} ∪ words
  else words.

(** [load_word_list], from the lines of the word file; [None] when the file
    does not exist, and the set is returned empty. *)
Definition load_word_list (file : option (list string)) : gset string :=
  match file with
  | None => ∅
  | Some lines => foldl load_step ∅ lines
  end.

(** [load_name_list] treats the names file the same way. *)
Definition load_name_list (file : option (list string)) : gset string :=
  match file with
  | None => ∅
  | Some lines => foldl load_step ∅ lines
  end.

(** ** The tone row of a MIDI file ([midi_to_tone_row]) *)

(** The last step of [midi_to_tone_row], [' '.join(note_names)], from the
    names of the single notes in the order of their offsets. *)
Definition tone_row_of_names (note_names : list string) : string :=
  String.concat " " note_names.

(** A note name as [music21] writes it: not empty, without white space and
    unchanged by [upper]. *)
Definition note_token (n : string) : Prop :=
  n ≠ "" ∧ Forall (λ c, is_space c = false) (chars n) ∧ upper n = n.

(** ** Removing duplicates, for any key *)

(** The loop body shared by the two reports: keep the first record of a
    key, and replace it only by a record of the same key with fewer words. *)
Definition unique_by {K} `{EqDecision K} (key : ResultRecord → K)
    (unique_results : dict K ResultRecord) (r : ResultRecord) : dict K ResultRecord :=
  let k := key r in
  match dict_get unique_results k with
  | None => dict_set unique_results k r
  | Some kept =>
      if (num_words r <? num_words kept)%nat
      then dict_set unique_results k r
      else unique_results
  end.

(** A token the validation of [decoder.py] lets through: a canonical name,
    or a name whose enharmonic spelling is canonical. *)
Definition token_ok (enharmonic : string → option string) (n : string) : Prop :=
  n ∈ valid_note_names ∨
  ∃ name, enharmonic n = Some name ∧ name ∈ valid_note_names.

(** * Properties *)

(** ** The engine on small inputs *)

Example c_major_mapping :
  create_letter_note_mapping c_major
  = Returned (zip ascii_lowercase
      (concat (replicate 3 ["C"; "D"; "E"; "F"; "G"; "A"; "B"]) ++ ["C"; "D"; "E"; "F"; "G"])).
Proof. vm_compute. reflexivity. Qed.

Example c_major_letters_of_C : c_major_letters !! "C" = Some (chars "ahov").
Proof. vm_compute. reflexivity. Qed.

Example c_major_letters_of_A : c_major_letters !! "A" = Some (chars "fmt").
Proof. vm_compute. reflexivity. Qed.

Example decode_two_notes :
  decode_melody enharmonic_name c_major_letters ["A"; "B"]
  = chars <$> ["fg"; "fn"; "fu"; "mg"; "mn"; "mu"; "tg"; "tn"; "tu"].
Proof. vm_compute. reflexivity. Qed.

Example decode_enharmonic :
  decode_melody enharmonic_name c_major_letters ["E#"] = chars <$> ["d"; "k"; "r"; "y"].
Proof. vm_compute. reflexivity. Qed.

Example decode_unmapped_note :
  decode_melody enharmonic_name c_major_letters ["A"; "C#"] = [].
Proof. vm_compute. reflexivity. Qed.

Example segment_acat :
  segment_into_words (chars "acat") {[ "a"; "cat"; "act" ]} ∅ 3 = Some ["a"; "cat"].
Proof. vm_compute. reflexivity. Qed.

Example segment_first_minimal_is_kept :
  segment_into_words (chars "abc") {[ "a"; "bc"; "ab"; "c" ]} ∅ 2 = Some ["a"; "bc"].
Proof. vm_compute. reflexivity. Qed.

Example segment_no_decomposition :
  segment_into_words (chars "acta") {[ "cat"; "act" ]} ∅ 3 = None.
Proof. vm_compute. reflexivity. Qed.

Example segment_short_window :
  segment_into_words (chars "cat") {[ "cat" ]} ∅ 2 = None.
Proof. vm_compute. reflexivity. Qed.

Example valid_single_letter :
  is_valid_phrase ["i"] ∅ {[ "i" ]} = true ∧ is_valid_phrase ["x"] ∅ {[ "x" ]} = false ∧
  is_valid_phrase [] ∅ {[ "i" ]} = false.
Proof. vm_compute. auto. Qed.

Example prefix_set_of_cat : build_prefix_set {[ "cat"; "a" ]} = {[ "c"; "ca" ]}.
Proof. apply (bool_decide_unpack _). vm_compute. exact I. Qed.

Example tone_row_tokens : upper <$> split "  c#  e-	f " = ["C#"; "E-"; "F"].
Proof. vm_compute. reflexivity. Qed.

Example unique_keeps_first_position :
  dict_values (foldl unique_step []
    [ {| phrase := "hi"; decoded_root_note := "C"; decoded_scale := "Major"; num_words := 1 |};
      {| phrase := "a i"; decoded_root_note := "C"; decoded_scale := "Major"; num_words := 2 |};
      {| phrase := "hi"; decoded_root_note := "D"; decoded_scale := "Dorian"; num_words := 1 |} ])
  = [ {| phrase := "hi"; decoded_root_note := "C"; decoded_scale := "Major"; num_words := 1 |};
      {| phrase := "a i"; decoded_root_note := "C"; decoded_scale := "Major"; num_words := 2 |} ].
Proof. vm_compute. reflexivity. Qed.

(** ** Strings and slices *)

Lemma chars_app (a b : string) : chars (a +:+ b) = chars a ++ chars b.
Proof.
  induction a as [|c a IH]; [done|].
  change (chars (String c (a +:+ b)) = c :: (chars a ++ chars b)).
  unfold chars in *. simpl. by rewrite IH.
Qed.

Lemma chars_join_chars (cs : list ascii) : chars (join_chars cs) = cs.
Proof. apply String.list_ascii_of_string_of_list_ascii. Qed.

Lemma join_chars_chars (s : string) : join_chars (chars s) = s.
Proof. apply String.string_of_list_ascii_of_string. Qed.

Lemma chars_inj (a b : string) : chars a = chars b → a = b.
Proof. intros H. by rewrite <- (join_chars_chars a), <- (join_chars_chars b), H. Qed.

Lemma chars_length (s : string) : length (chars s) = String.length s.
Proof. induction s; simpl; auto. Qed.

Lemma chars_join_words (ws : list string) : chars (join_words ws) = concat (chars <$> ws).
Proof.
  induction ws as [|w ws IH]; [done|].
  simpl. by rewrite chars_app, IH.
Qed.

Lemma join_words_snoc (ws : list string) (w : string) :
  join_words (ws ++ [w]) = join_words ws +:+ w.
Proof.
  apply chars_inj. rewrite chars_app, !chars_join_words, fmap_app, concat_app. simpl.
  by rewrite app_nil_r.
Qed.

Lemma join_chars_app (a b : list ascii) : join_chars (a ++ b) = join_chars a +:+ join_chars b.
Proof. apply chars_inj. by rewrite chars_app, !chars_join_chars. Qed.

Lemma take_slice {A} (j i : nat) (xs : list A) : j ≤ i → take j xs ++ slice j i xs = take i xs.
Proof.
  intros Hji. unfold slice. rewrite take_take_drop. f_equal. lia.
Qed.

Lemma chars_substring (j m : nat) (s : string) :
  chars (String.substring j m s) = take m (drop j (chars s)).
Proof.
  revert j m. induction s as [|c s IH]; intros j m.
  - destruct j, m; done.
  - destruct j as [|j].
    + destruct m as [|m]; [done|]. simpl. f_equal. apply (IH 0).
    + simpl. apply IH.
Qed.

Lemma str_slice_join_chars (j i : nat) (cs : list ascii) :
  str_slice j i (join_chars cs) = join_chars (slice j i cs).
Proof.
  apply chars_inj. unfold str_slice. by rewrite chars_substring, !chars_join_chars.
Qed.

(** ** The table of the segmenter *)

Section Segmentation.
Context (s : list ascii) (W P : gset string) (mwl : Z).

Lemma elem_of_window (i j : nat) :
  j ∈ window i mwl ↔ (Z.max 0 (Z.of_nat i - mwl) ≤ Z.of_nat j)%Z ∧ j < i.
Proof. unfold window. rewrite elem_of_seq. lia. Qed.

Lemma inner_step_spec (i j : nat) (dp : table) :
  i < length dp →
  let dp' := inner_step s W P i dp j in
  length dp' = length dp ∧
  (∀ k, k ≠ i → dp' !! k = dp !! k) ∧
  (∀ p, dp !! i = Some (Some p) →
     ∃ p', dp' !! i = Some (Some p') ∧ length p' ≤ length p) ∧
  (∀ pj, dp !! j = Some (Some pj) → join_chars (slice j i s) ∈ W →
     ∃ p', dp' !! i = Some (Some p') ∧ length p' ≤ length pj + 1) ∧
  (∀ p', dp' !! i = Some (Some p') →
     dp !! i = Some (Some p') ∨
     ∃ pj, dp !! j = Some (Some pj) ∧ join_chars (slice j i s) ∈ W ∧ p' = pj ++ [join_chars (slice j i s)]).
Proof.
  intros Hi. unfold inner_step.
  destruct (dp !! j) as [[pj|]|] eqn:Hj; try (cbn zeta; naive_solver).
  case_bool_decide as Hw; [|destruct (bool_decide _); cbn zeta; naive_solver].
  assert (Hupd : ∀ dp0 : table, dp0 = <[i := Some (pj ++ [join_chars (slice j i s)])]> dp →
    length dp0 = length dp ∧
    (∀ k, k ≠ i → dp0 !! k = dp !! k) ∧
    dp0 !! i = Some (Some (pj ++ [join_chars (slice j i s)]))).
  { intros dp0 ->. rewrite length_insert. split; [done|]. split.
    - intros k Hk. by rewrite list_lookup_insert_ne.
    - by rewrite list_lookup_insert_eq. }
  destruct (dp !! i) as [[pi|]|] eqn:Hdpi.
  - destruct (Nat.ltb_spec (length pj + 1) (length pi)) as [Hlt|Hge]; cbn zeta.
    + destruct (Hupd _ eq_refl) as (Hlen & Hne & Heq).
      split; [exact Hlen|]. split; [exact Hne|]. repeat split.
      * intros p [= <-]. eexists; split; [exact Heq|]. rewrite length_app. simpl. lia.
      * intros pj' [= <-] _. eexists; split; [exact Heq|]. rewrite length_app. simpl. lia.
      * intros p'. rewrite Heq. intros [= <-]. right. eauto.
    + split; [reflexivity|]. split; [reflexivity|]. repeat split.
      * intros p [= <-]. eauto.
      * intros pj' [= <-] _. exists pi. split; [done|lia].
      * intros p'. rewrite Hdpi. by left.
  - cbn zeta. destruct (Hupd _ eq_refl) as (Hlen & Hne & Heq).
    split; [exact Hlen|]. split; [exact Hne|]. repeat split.
    + intros p [=].
    + intros pj' [= <-] _. eexists; split; [exact Heq|]. rewrite length_app. simpl. lia.
    + intros p'. rewrite Heq. intros [= <-]. right. eauto.
  - apply lookup_ge_None in Hdpi. lia.
Qed.

Lemma inner_fold_spec (i : nat) (js : list nat) (dp : table) :
  (∀ j, j ∈ js → j < i) → i < length dp →
  let dp' := foldl (inner_step s W P i) dp js in
  length dp' = length dp ∧
  (∀ k, k ≠ i → dp' !! k = dp !! k) ∧
  (∀ p, dp !! i = Some (Some p) →
     ∃ p', dp' !! i = Some (Some p') ∧ length p' ≤ length p) ∧
  (∀ j pj, j ∈ js → dp !! j = Some (Some pj) → join_chars (slice j i s) ∈ W →
     ∃ p', dp' !! i = Some (Some p') ∧ length p' ≤ length pj + 1) ∧
  (∀ p', dp' !! i = Some (Some p') →
     dp !! i = Some (Some p') ∨
     ∃ j pj, j ∈ js ∧ dp !! j = Some (Some pj) ∧ join_chars (slice j i s) ∈ W ∧ p' = pj ++ [join_chars (slice j i s)]).
Proof.
  revert dp. induction js as [|j js IH]; intros dp Hjs Hi; cbn zeta.
  { simpl. repeat split; eauto. intros j pj Hj. by apply elem_of_nil in Hj. }
  simpl foldl.
  destruct (inner_step_spec i j dp Hi) as (Hlen1 & Hne1 & Hmono1 & Hcand1 & Hinv1).
  cbn zeta in *.
  set (dp1 := inner_step s W P i dp j) in *.
  assert (Hj : j < i) by (apply Hjs; left).
  destruct (IH dp1) as (Hlen & Hne & Hmono & Hcand & Hinv).
  { intros j' Hj'. apply Hjs. by right. }
  { lia. }
  cbn zeta in *. repeat split.
  - lia.
  - intros k Hk. by rewrite Hne, Hne1.
  - intros p Hp. destruct (Hmono1 p Hp) as (p1 & Hp1 & Hl1).
    destruct (Hmono p1 Hp1) as (p' & Hp' & Hl'). exists p'. split; [done|lia].
  - intros j' pj Hj' Hpj Hw. apply elem_of_cons in Hj' as [->|Hj'].
    + destruct (Hcand1 pj Hpj Hw) as (p1 & Hp1 & Hl1).
      destruct (Hmono p1 Hp1) as (p' & Hp' & Hl'). exists p'. split; [done|lia].
    + apply (Hcand j' pj Hj'); [|done].
      rewrite Hne1; [done|]. specialize (Hjs j' ltac:(by right)). lia.
  - intros p' Hp'. destruct (Hinv p' Hp') as [Hold|(j' & pj & Hj' & Hpj & Hw & ->)].
    + destruct (Hinv1 p' Hold) as [?|(pj & Hpj & Hw & ->)]; [by left|].
      right. exists j, pj. split; [left|done].
    + right. exists j', pj. split; [by right|]. split; [|done].
      rewrite <- Hne1; [done|]. specialize (Hjs j' ltac:(by right)). lia.
Qed.
End Segmentation.

Lemma segmentation_nil (W : gset string) : is_segmentation W [] [].
Proof. split; [constructor|done]. Qed.

Lemma segmentation_snoc (W : gset string) (s : list ascii) (j i : nat) (pj : list string) :
  j ≤ i → is_segmentation W pj (take j s) → join_chars (slice j i s) ∈ W →
  is_segmentation W (pj ++ [join_chars (slice j i s)]) (take i s).
Proof.
  intros Hji [Hall Hcat] Hw. split.
  - apply Forall_app. split; [done|]. by constructor.
  - by rewrite join_words_snoc, Hcat, <- join_chars_app, take_slice.
Qed.

(** The last non-empty word of a segmentation of a non-empty prefix. *)
Lemma segmentation_last (W : gset string) (s : list ascii) (i : nat) (ws : list string) :
  1 ≤ i ≤ length s → is_segmentation W ws (take i s) →
  ∃ ws' w, w ∈ W ∧ 1 ≤ String.length w ≤ i ∧ length ws' + 1 ≤ length ws ∧
           is_segmentation W ws' (take (i - String.length w) s) ∧
           w = join_chars (slice (i - String.length w) i s).
Proof.
  intros Hi. induction ws as [|w ws IH] using rev_ind; intros [Hall Hcat].
  - apply (f_equal chars) in Hcat. rewrite chars_join_chars in Hcat. simpl in Hcat.
    apply (f_equal length) in Hcat. rewrite length_take in Hcat. simpl in Hcat. lia.
  - apply Forall_app in Hall as [Hall Hw]. apply Forall_inv in Hw.
    rewrite join_words_snoc in Hcat.
    apply (f_equal chars) in Hcat. rewrite chars_app, chars_join_chars in Hcat.
    destruct (decide (String.length w = 0)) as [Hz|Hnz].
    + destruct w; [|done]. simpl in Hcat. rewrite app_nil_r in Hcat.
      destruct IH as (ws' & w' & Hw' & Hl' & Hn' & Hs' & He').
      { split; [done|]. apply chars_inj. by rewrite chars_join_chars. }
      exists ws', w'. rewrite length_app. simpl.
      split; [done|]. split; [done|]. split; [lia|]. by split.
    + assert (Hlen : length (chars (join_words ws)) + String.length w = i).
      { apply (f_equal length) in Hcat.
        rewrite length_app, length_take in Hcat. rewrite !chars_length in *. lia. }
      assert (Hs : s = chars (join_words ws) ++ chars w ++ drop i s).
      { by rewrite app_assoc, Hcat, take_drop. }
      assert (Hj : i - String.length w = length (chars (join_words ws))) by lia.
      exists ws, w. rewrite length_app. simpl. repeat split; try done; try lia.
      * apply chars_inj. rewrite chars_join_chars, Hj.
        rewrite Hs at 1. by rewrite take_app_length.
      * apply chars_inj. rewrite chars_join_chars. unfold slice. rewrite Hj.
        rewrite Hs at 1. rewrite drop_app_length.
        replace (i - length (chars (join_words ws))) with (length (chars w))
          by (rewrite chars_length; lia).
        by rewrite take_app_length.
Qed.

Section SegmentationRun.
Context (s : list ascii) (W P : gset string) (mwl : Z).

Lemma outer_step_spec (i : nat) (dp : table) :
  1 ≤ i ≤ length s → length dp = length s + 1 → sound_table s W dp →
  let dp' := outer_step s W P mwl dp i in
  length dp' = length dp ∧
  sound_table s W dp' ∧
  (covers W mwl → optimal_upto s W (i - 1) dp → optimal_upto s W i dp').
Proof.
  intros Hi Hlen Hsound. unfold outer_step.
  destruct (inner_fold_spec s W P i (window i mwl) dp) as (Hl & Hne & Hmono & Hcand & Hinv).
  { intros j Hj. by apply elem_of_window in Hj as [_ ?]. }
  { lia. }
  cbn zeta in *. split; [done|]. split.
  - intros k p Hp. destruct (decide (k = i)) as [->|Hk].
    + destruct (Hinv p Hp) as [Hold|(j & pj & Hj & Hpj & Hw & ->)]; [by apply Hsound|].
      apply elem_of_window in Hj as [_ Hj].
      apply segmentation_snoc; [lia| by apply Hsound |done].
    + rewrite Hne in Hp by done. by apply Hsound.
  - intros Hcov Hopt k ws Hk Hseg. destruct (decide (k = i)) as [->|Hne'].
    + destruct (segmentation_last W s i ws Hi Hseg) as (ws' & w & Hw & Hwl & Hws & Hseg' & Heq).
      destruct (Hopt (i - String.length w) ws' ltac:(lia) Hseg') as (pj & Hpj & Hle).
      destruct (Hcand (i - String.length w) pj) as (p' & Hp' & Hle').
      * apply elem_of_window. specialize (Hcov w Hw). lia.
      * done.
      * by rewrite <- Heq.
      * exists p'. split; [done|lia].
    + rewrite Hne by done. apply Hopt; [lia|done].
Qed.

Lemma run_table_S (m : nat) :
  run_table s W P mwl (S m) = outer_step s W P mwl (run_table s W P mwl m) (S m).
Proof. unfold run_table. cbn zeta. by rewrite seq_S, foldl_app. Qed.

Lemma run_table_spec (m : nat) :
  m ≤ length s →
  let dp := run_table s W P mwl m in
  length dp = length s + 1 ∧ sound_table s W dp ∧ (covers W mwl → optimal_upto s W m dp).
Proof.
  induction m as [|m IH]; intros Hm; cbn zeta.
  - unfold run_table. simpl. rewrite length_insert, length_replicate.
    split; [done|]. split.
    + intros [|k] p Hp.
      * rewrite list_lookup_insert_eq in Hp by (rewrite length_replicate; lia).
        injection Hp as <-. apply segmentation_nil.
      * rewrite list_lookup_insert_ne in Hp by done.
        apply lookup_replicate in Hp as [[=] _].
    + intros _ k ws Hk _. assert (k = 0) as -> by lia. exists []. split; [|simpl; lia].
      apply list_lookup_insert_eq. rewrite length_replicate. lia.
  - rewrite run_table_S. destruct IH as (Hlen & Hsound & Hopt); [lia|].
    destruct (outer_step_spec (S m) (run_table s W P mwl m)) as (Hlen' & Hsound' & Hopt');
      [lia|done|done|].
    cbn zeta in *. split; [lia|]. split; [done|].
    intros Hcov. apply Hopt'; [done|]. replace (S m - 1) with m by lia. by apply Hopt.
Qed.

Lemma segment_into_words_sound (p : list string) :
  segment_into_words s W P mwl = Some p → is_segmentation W p s.
Proof.
  unfold segment_into_words. cbn zeta.
  destruct (run_table_spec (length s)) as (_ & Hsound & _); [done|]. cbn zeta in Hsound.
  destruct (run_table s W P mwl (length s) !! length s) as [v|] eqn:Hv; [|done].
  simpl. intros ->. specialize (Hsound _ _ Hv). by rewrite firstn_all in Hsound.
Qed.

Lemma segment_into_words_optimal (ws : list string) :
  covers W mwl → is_segmentation W ws s →
  ∃ p, segment_into_words s W P mwl = Some p ∧ length p ≤ length ws.
Proof.
  intros Hcov Hseg. unfold segment_into_words. cbn zeta.
  destruct (run_table_spec (length s)) as (_ & _ & Hopt); [done|].
  destruct (Hopt Hcov (length s) ws) as (p & Hp & Hle); [done| by rewrite firstn_all |].
  exists p. by rewrite Hp.
Qed.
End SegmentationRun.

Lemma max_word_length_covers (W : gset string) : covers W (max_word_length W).
Proof.
  intros w Hw. unfold max_word_length, set_fold. simpl.
  apply elem_of_elements in Hw. induction (elements W) as [|x xs IH]; [by apply elem_of_nil in Hw|].
  simpl. apply elem_of_cons in Hw as [->|Hw]; [lia|]. specialize (IH Hw). lia.
Qed.

Lemma segmentation_subseteq (W W' : gset string) (ws : list string) (s : list ascii) :
  W ⊆ W' → is_segmentation W ws s → is_segmentation W' ws s.
Proof.
  intros Hsub [Hall Hcat]. split; [|done].
  eapply Forall_impl; [done|]. intros w Hw. by apply Hsub.
Qed.

Lemma foldl_pointwise {A B} (f g : A → B → A) (l : list B) (a : A) :
  (∀ a b, f a b = g a b) → foldl f a l = foldl g a l.
Proof. intros Hfg. revert a. induction l as [|b l IH]; intros a; simpl; [done|]. by rewrite Hfg, IH. Qed.

Lemma inner_step_prefixes (s : list ascii) (W P1 P2 : gset string) (i : nat) (dp : table) (j : nat) :
  inner_step s W P1 i dp j = inner_step s W P2 i dp j.
Proof.
  unfold inner_step. destruct (dp !! j) as [[dpj|]|]; [|done|done].
  cbn zeta. case_bool_decide; [done|]. by do 2 destruct (bool_decide _).
Qed.

Lemma bool_decide_union (E N : gset string) (w : string) :
  bool_decide (w ∈ E) || bool_decide (w ∈ N) = bool_decide (w ∈ E ∪ N).
Proof.
  rewrite <- bool_decide_or. apply bool_decide_ext. by rewrite elem_of_union.
Qed.

Lemma inner_step_melody_decoder (s : list ascii) (E N P : gset string)
    (i : nat) (dp : table) (j : nat) :
  MelodyDecoder.inner_step (join_chars s) E N i dp j = inner_step s (E ∪ N) P i dp j.
Proof.
  unfold MelodyDecoder.inner_step, inner_step. cbn zeta.
  rewrite str_slice_join_chars, bool_decide_union.
  destruct (dp !! j) as [[dpj|]|]; destruct (bool_decide (_ ∈ E ∪ N)); try done.
  by destruct (bool_decide _).
Qed.

(** ** The lexical segmenter *)

(** C1. With [max_word_length] the longest length of a member of [W], the
    segmenter returns [None] exactly when [s] has no decomposition into
    members of [W]; otherwise it returns a decomposition into members of [W]
    with the fewest words among all such decompositions. *)
Theorem segment_into_words_minimal (s : list ascii) (W P : gset string) :
  (segment_into_words s W P (max_word_length W) = None ↔
     ¬ ∃ ws, is_segmentation W ws s) ∧
  (∀ p, segment_into_words s W P (max_word_length W) = Some p →
     is_segmentation W p s ∧ ∀ ws, is_segmentation W ws s → length p ≤ length ws).
Proof.
  split.
  - split.
    + intros Hnone [ws Hws].
      destruct (segment_into_words_optimal s W P _ ws (max_word_length_covers W) Hws)
        as (p & Hp & _).
      congruence.
    + intros Hno. destruct (segment_into_words _ _ _ _) as [p|] eqn:Hp; [|done].
      destruct Hno. exists p. by eapply segment_into_words_sound.
  - intros p Hp. split; [by eapply segment_into_words_sound|].
    intros ws Hws.
    destruct (segment_into_words_optimal s W P _ ws (max_word_length_covers W) Hws)
      as (p' & Hp' & Hle).
    congruence.
Qed.

(** C7. A phrase returned by the segmenter concatenates to the string it
    was given, whatever the word set, prefix set and maximal length. *)
Theorem segment_into_words_concat (s : list ascii) (W P : gset string) (mwl : Z)
    (p : list string) :
  segment_into_words s W P mwl = Some p → join_words p = join_chars s.
Proof. intros Hp. by destruct (segment_into_words_sound s W P mwl p Hp). Qed.

Lemma segment_into_words_concat_witness :
  join_words ["a"; "cat"] = join_chars (chars "acat").
Proof.
  apply (segment_into_words_concat (chars "acat") {[ "a"; "cat"; "act" ]} ∅ 3).
  vm_compute. reflexivity.
Defined.

(** C8. Enlarging the word set never makes segmentation harder: a string
    segmented into [k] words under [W] is segmented into at most [k] words
    under any [W'] that contains [W], each set with its own maximal length. *)
Theorem segment_into_words_monotone (s : list ascii) (W W' P P' : gset string)
    (p : list string) :
  W ⊆ W' →
  segment_into_words s W P (max_word_length W) = Some p →
  ∃ p', segment_into_words s W' P' (max_word_length W') = Some p' ∧ length p' ≤ length p.
Proof.
  intros Hsub Hp. apply segment_into_words_sound in Hp.
  apply (segment_into_words_optimal s W' P' _ p (max_word_length_covers W')).
  by eapply segmentation_subseteq.
Qed.

Lemma segment_into_words_monotone_witness :
  ∃ p', segment_into_words (chars "acat") {[ "a"; "cat"; "acat" ]} ∅
          (max_word_length {[ "a"; "cat"; "acat" ]}) = Some p'
        ∧ length p' ≤ length ["a"; "cat"].
Proof.
  apply (segment_into_words_monotone (chars "acat") {[ "a"; "cat" ]} _ ∅ ∅ ["a"; "cat"]).
  - apply (bool_decide_unpack _). vm_compute. exact I.
  - vm_compute. reflexivity.
Defined.

(** C9. The prefix set does not influence the result, and the segmenter of
    [melody_decoder.py], which has no prefix set and tests two word sets,
    computes the same result when the two sets make up the word set. *)
Theorem prefixes_set_irrelevant (s : list ascii) (W P1 P2 E N : gset string) (mwl : Z) :
  E ∪ N = W →
  segment_into_words s W P1 mwl = segment_into_words s W P2 mwl ∧
  MelodyDecoder.segment_into_words (join_chars s) E N mwl = segment_into_words s W P1 mwl.
Proof.
  intros <-. split.
  - unfold segment_into_words, run_table. cbn zeta. do 2 f_equal.
    apply foldl_pointwise. intros dp i. unfold outer_step.
    apply foldl_pointwise. intros dp' j. apply inner_step_prefixes.
  - unfold MelodyDecoder.segment_into_words, segment_into_words, run_table. cbn zeta.
    replace (String.length (join_chars s)) with (length s)
      by (by rewrite <- chars_length, chars_join_chars).
    do 2 f_equal. apply foldl_pointwise. intros dp i.
    unfold MelodyDecoder.outer_step, outer_step.
    apply foldl_pointwise. intros dp' j. apply inner_step_melody_decoder.
Qed.

Lemma prefixes_set_irrelevant_witness :
  segment_into_words (chars "acat") {[ "a"; "cat" ]} ∅ 3
    = segment_into_words (chars "acat") {[ "a"; "cat" ]} (build_prefix_set {[ "a"; "cat" ]}) 3 ∧
  MelodyDecoder.segment_into_words (join_chars (chars "acat")) {[ "a" ]} {[ "cat" ]} 3
    = segment_into_words (chars "acat") {[ "a"; "cat" ]} ∅ 3.
Proof.
  apply (prefixes_set_irrelevant (chars "acat") {[ "a"; "cat" ]} ∅
           (build_prefix_set {[ "a"; "cat" ]}) {[ "a" ]} {[ "cat" ]} 3).
  apply (bool_decide_unpack _). vm_compute. exact I.
Defined.

Lemma is_valid_phrase_loop_true (phrase : list string) (N E : gset string) :
  Forall (λ w, (String.length w = 1 → w ∈ valid_single_letter_words) ∧ w ∈ E ∪ N) phrase →
  is_valid_phrase_loop phrase N E = true.
Proof.
  induction 1 as [|w ws [Hone Hmem] _ IH]; [done|]. simpl.
  destruct (Nat.eqb_spec (String.length w) 1) as [H1|H1].
  - rewrite (bool_decide_eq_true_2 _ (Hone H1)). simpl.
    by rewrite bool_decide_union, bool_decide_eq_true_2.
  - simpl. by rewrite bool_decide_union, bool_decide_eq_true_2.
Qed.

(** C10. Validation never rejects what the segmenter produced: when the
    only one-letter members of the word set are [a] and [i] and every
    member is an English word or a name, a non-empty phrase returned by the
    segmenter passes [is_valid_phrase]. *)
Theorem segmented_phrase_is_valid (s : list ascii) (W P E N : gset string) (mwl : Z)
    (p : list string) :
  (∀ w, w ∈ W → String.length w = 1 → w = "a" ∨ w = "i") →
  W ⊆ E ∪ N →
  segment_into_words s W P mwl = Some p →
  p ≠ [] →
  is_valid_phrase p N E = true.
Proof.
  intros Hone Hsub Hp Hne. apply segment_into_words_sound in Hp as [Hall _].
  destruct p as [|w p]; [done|]. unfold is_valid_phrase.
  apply is_valid_phrase_loop_true. eapply Forall_impl; [done|].
  intros w' Hw'. split; [|by apply Hsub].
  intros H1. unfold valid_single_letter_words. destruct (Hone w' Hw' H1) as [-> | ->]; set_solver.
Qed.

Lemma segmented_phrase_is_valid_witness :
  is_valid_phrase ["a"; "cat"] {[ "ada" ]} {[ "a"; "cat" ]} = true.
Proof.
  apply (segmented_phrase_is_valid (chars "acat") {[ "a"; "cat" ]} ∅ {[ "a"; "cat" ]}
           {[ "ada" ]} 3 ["a"; "cat"]).
  - intros w Hw Hlen. apply elem_of_union in Hw as [Hw|Hw]; apply elem_of_singleton in Hw;
      subst; [by left|done].
  - apply (bool_decide_unpack _). vm_compute. exact I.
  - vm_compute. reflexivity.
  - done.
Defined.

(** ** The melody expander *)

Lemma collect_letters_none (enh : string → option string) (ntl : gmap string (list ascii))
    (melody : list string) (acc : list (list ascii)) :
  [] ∈ letter_pools enh ntl melody → collect_letters enh ntl melody acc = None.
Proof.
  revert acc. unfold letter_pools.
  induction melody as [|n melody IH]; intros acc Hin; [by apply elem_of_nil in Hin|].
  cbn [collect_letters]. rewrite fmap_cons in Hin.
  destruct (letters_of_note enh ntl n) as [|l ls]; [done|].
  apply IH. by apply elem_of_cons in Hin as [?|?].
Qed.

Lemma collect_letters_some (enh : string → option string) (ntl : gmap string (list ascii))
    (melody : list string) (acc : list (list ascii)) :
  [] ∉ letter_pools enh ntl melody →
  collect_letters enh ntl melody acc = Some (acc ++ letter_pools enh ntl melody).
Proof.
  revert acc. unfold letter_pools.
  induction melody as [|n melody IH]; intros acc Hnin.
  - simpl. by rewrite app_nil_r.
  - cbn [collect_letters]. rewrite fmap_cons in *.
    apply not_elem_of_cons in Hnin as [Hn Hnin].
    destruct (letters_of_note enh ntl n) as [|l ls]; [done|].
    rewrite IH by done. by rewrite <- app_assoc.
Qed.

Lemma elem_of_flat_map {A B} (f : A → list B) (l : list A) (y : B) :
  y ∈ flat_map f l ↔ ∃ x, x ∈ l ∧ y ∈ f x.
Proof.
  rewrite list_elem_of_In, in_flat_map. by setoid_rewrite list_elem_of_In.
Qed.

Lemma elem_of_product {A} (pools : list (list A)) (c : list A) :
  c ∈ product pools ↔ Forall2 (λ x pool, x ∈ pool) c pools.
Proof.
  revert c. induction pools as [|pool pools IH]; intros c; simpl.
  - rewrite list_elem_of_singleton. split; [intros ->; constructor|by inversion 1].
  - rewrite elem_of_flat_map. split.
    + intros (x & Hx & Hc). apply list_elem_of_fmap in Hc as (c' & -> & Hc').
      constructor; [done|]. by apply IH.
    + inversion 1 as [|x pool' c' pools' Hx Hc']; subst.
      exists x. split; [done|]. apply list_elem_of_fmap. exists c'. split; [done|]. by apply IH.
Qed.

Lemma length_product {A} (pools : list (list A)) :
  length (product pools) = foldr (λ pool k, length pool * k) 1 pools.
Proof.
  induction pools as [|pool pools IH]; [done|]. simpl.
  rewrite (flat_map_constant_length (c := length (product pools))).
  - by rewrite IH.
  - intros x _. by rewrite length_fmap.
Qed.

Lemma letter_lt_trans : Transitive letter_lt.
Proof. intros a b c. unfold letter_lt. lia. Qed.

Lemma alphabetical_sorted (letters : list ascii) :
  alphabetical letters = true → StronglySorted letter_lt letters.
Proof.
  intros H. apply Sorted_StronglySorted; [apply letter_lt_trans|].
  induction letters as [|a [|b rest] IH]; [constructor|by repeat constructor|].
  simpl in H. apply andb_prop in H as [Hab Hrest].
  constructor; [by apply IH|]. constructor. unfold letter_lt. by apply Nat.ltb_lt.
Qed.

Lemma product_sorted (pools : list (list ascii)) :
  Forall (StronglySorted letter_lt) pools → StronglySorted lex_lt (product pools).
Proof.
  induction 1 as [|pool pools Hpool _ IH]; simpl.
  - repeat constructor.
  - induction Hpool as [|x pool Hpool IHpool Hx]; simpl; [constructor|].
    apply StronglySorted_app_2.
    + intros c1 c2 (c1' & -> & _)%list_elem_of_fmap Hc2.
      apply elem_of_flat_map in Hc2 as (y & Hy & (c2' & -> & _)%list_elem_of_fmap).
      apply lex_lt_head. rewrite Forall_forall in Hx. by apply Hx.
    + eapply StronglySorted_fmap; [|done]. intros c1 c2. apply lex_lt_tail.
    + done.
Qed.

Lemma letters_of_note_unresolvable (enh : string → option string)
    (ntl : gmap string (list ascii)) (n : string) :
  unresolvable enh ntl n → letters_of_note enh ntl n = [].
Proof.
  unfold unresolvable, no_entry, letters_of_note.
  intros [Hn Hfall].
  assert (Hd : default [] (ntl !! n) = []) by (destruct Hn as [-> | ->]; done).
  rewrite Hd. destruct Hfall as [-> | (name & -> & Hname)]; [done|].
  destruct Hname as [-> | ->]; done.
Qed.

Lemma letters_of_note_note_letters (enh : string → option string)
    (ntl : gmap string (list ascii)) (n : string) (letters : list ascii) :
  note_letters enh ntl n letters → letters_of_note enh ntl n = letters.
Proof.
  unfold note_letters, no_entry, letters_of_note.
  intros [Hne [Hn | [Hn (name & Hname & Hl)]]].
  - rewrite Hn. simpl. by destruct letters.
  - assert (Hd : default [] (ntl !! n) = []) by (destruct Hn as [-> | ->]; done).
    by rewrite Hd, Hname, Hl.
Qed.

Lemma letters_of_note_spec (enh : string → option string)
    (ntl : gmap string (list ascii)) (n : string) :
  unresolvable enh ntl n ∨ note_letters enh ntl n (letters_of_note enh ntl n).
Proof.
  unfold unresolvable, note_letters, no_entry, letters_of_note.
  destruct (ntl !! n) as [[|l ls]|] eqn:Hn; simpl.
  - destruct (enh n) as [name|] eqn:He; [|left; split; [by right|by left]].
    destruct (ntl !! name) as [[|l ls]|] eqn:Hname; simpl.
    + left. split; [by right|]. right. exists name. split; [done|by right].
    + right. split; [done|]. right. split; [by right|]. by exists name.
    + left. split; [by right|]. right. exists name. split; [done|by left].
  - right. split; [done|by left].
  - destruct (enh n) as [name|] eqn:He; [|left; split; [by left|by left]].
    destruct (ntl !! name) as [[|l ls]|] eqn:Hname; simpl.
    + left. split; [by left|]. right. exists name. split; [done|by right].
    + right. split; [done|]. right. split; [by left|]. by exists name.
    + left. split; [by left|]. right. exists name. split; [done|by left].
Qed.

Lemma letter_pools_note_letters (enh : string → option string)
    (ntl : gmap string (list ascii)) (melody : list string) (pools : list (list ascii)) :
  Forall2 (note_letters enh ntl) melody pools →
  letter_pools enh ntl melody = pools ∧ [] ∉ pools.
Proof.
  unfold letter_pools. induction 1 as [|n letters melody pools Hn _ [IH1 IH2]].
  - split; [done|]. apply not_elem_of_nil.
  - rewrite fmap_cons, (letters_of_note_note_letters _ _ _ _ Hn), IH1.
    split; [done|]. apply not_elem_of_cons. split; [|done].
    destruct Hn as [Hne _]. congruence.
Qed.

(** C5. If some note of the melody has no letters after the direct lookup
    and the enharmonic fallback (no entry, or an empty one, under its name
    and under the name of its enharmonic spelling), [decode_melody] returns
    the empty sequence. Otherwise every note has a letter list, the one
    found under its name or else under its enharmonic spelling, and
    [decode_melody] yields the product of these lists: the tuples that take
    one letter of each position, as many as the product of the sizes of the
    lists, each as long as the melody, and in lexicographic order when each
    list is in alphabetical order. One of the two cases always holds. *)
Theorem decode_melody_product (enh : string → option string)
    (ntl : gmap string (list ascii)) (melody : list string) :
  ((∃ n, n ∈ melody ∧ unresolvable enh ntl n) → decode_melody enh ntl melody = []) ∧
  (∀ pools, Forall2 (note_letters enh ntl) melody pools →
     decode_melody enh ntl melody = product pools ∧
     (∀ c, c ∈ decode_melody enh ntl melody ↔ Forall2 (λ x pool, x ∈ pool) c pools) ∧
     length (decode_melody enh ntl melody) = foldr (λ pool k, length pool * k) 1 pools ∧
     Forall (λ c, length c = length melody) (decode_melody enh ntl melody) ∧
     (forallb alphabetical pools = true →
        StronglySorted lex_lt (decode_melody enh ntl melody))) ∧
  ((∃ n, n ∈ melody ∧ unresolvable enh ntl n) ∨
   ∃ pools, Forall2 (note_letters enh ntl) melody pools).
Proof.
  split; [|split].
  - intros (n & Hn & Hun). unfold decode_melody. rewrite collect_letters_none; [done|].
    unfold letter_pools. apply list_elem_of_fmap. exists n.
    by rewrite letters_of_note_unresolvable.
  - intros pools Hpools. pose proof (Forall2_length _ _ _ Hpools) as Hlen.
    apply letter_pools_note_letters in Hpools as [Heq Hnin].
    unfold decode_melody. rewrite collect_letters_some by (by rewrite Heq).
    rewrite Heq. simpl.
    split; [done|]. split; [apply elem_of_product|]. split; [apply length_product|]. split.
    + apply Forall_forall. intros c Hc%elem_of_product. apply Forall2_length in Hc. lia.
    + intros Halpha. apply product_sorted. apply Forall_forall. intros pool Hpool.
      apply alphabetical_sorted. rewrite forallb_forall in Halpha. apply Halpha.
      by apply list_elem_of_In.
  - induction melody as [|n melody [(n' & Hn' & Hun) | [pools Hpools]]].
    + right. exists []. constructor.
    + left. exists n'. split; [by right|done].
    + destruct (letters_of_note_spec enh ntl n) as [Hun | Hn].
      * left. exists n. split; [left|done].
      * right. exists (letters_of_note enh ntl n :: pools). by constructor.
Qed.

Lemma decode_melody_product_witness :
  decode_melody enharmonic_name c_major_letters ["C"; "H"] = [] ∧
  decode_melody enharmonic_name c_major_letters ["C"; "E#"]
    = product [ chars "ahov"; chars "dkry" ] ∧
  length (decode_melody enharmonic_name c_major_letters ["C"; "E#"]) = 4 * (4 * 1).
Proof.
  split.
  - apply (proj1 (decode_melody_product enharmonic_name c_major_letters ["C"; "H"])).
    exists "H". split; [right; left|].
    split; [left; vm_compute; reflexivity|left; vm_compute; reflexivity].
  - assert (Hpools : Forall2 (note_letters enharmonic_name c_major_letters) ["C"; "E#"]
                       [ chars "ahov"; chars "dkry" ]).
    { constructor; [|constructor; [|constructor]].
      - split; [intros Hnil; vm_compute in Hnil; discriminate Hnil|]. left. vm_compute. reflexivity.
      - split; [intros Hnil; vm_compute in Hnil; discriminate Hnil|]. right.
        split; [left; vm_compute; reflexivity|].
        exists "F". split; vm_compute; reflexivity. }
    destruct (proj1 (proj2 (decode_melody_product enharmonic_name c_major_letters
                              ["C"; "E#"])) _ Hpools) as (Heq & _ & Hlen & _).
    split; [exact Heq|exact Hlen].
Defined.

(** ** The scale mapper *)

Lemma reverse_step_lookup (ntl : gmap string (list ascii)) (letter : ascii)
    (pitch_name pn : string) :
  reverse_step ntl (letter, pitch_name) !! pn =
    if decide (pitch_name = pn) then Some (default [] (ntl !! pn) ++ [letter])
    else ntl !! pn.
Proof.
  unfold reverse_step. destruct (ntl !! pitch_name) as [ls|] eqn:Hls.
  - destruct (decide (pitch_name = pn)) as [<-|Hne].
    + by rewrite lookup_insert_eq, Hls.
    + by rewrite lookup_insert_ne.
  - destruct (decide (pitch_name = pn)) as [<-|Hne].
    + by rewrite !lookup_insert_eq, Hls.
    + by rewrite !lookup_insert_ne.
Qed.

(** The letters of a pitch name in the inverse mapping are the keys of the
    mapping that hold it, in the order of the mapping. *)
Lemma reverse_mapping_lookup (mapping : dict ascii string) (pn : string) :
  reverse_mapping mapping !! pn =
    match filter (λ kv, kv.2 = pn) mapping with
    | [] => None
    | kvs => Some kvs.*1
    end.
Proof.
  unfold reverse_mapping.
  induction mapping as [|[letter pitch_name] mapping IH] using rev_ind; [done|].
  rewrite foldl_app, filter_app. cbn [foldl]. rewrite reverse_step_lookup, IH.
  destruct (decide (pitch_name = pn)) as [->|Hne].
  - rewrite filter_cons_True, filter_nil by done.
    destruct (filter _ mapping) as [|kv kvs]; [done|].
    simpl. by rewrite fmap_app.
  - by rewrite filter_cons_False, filter_nil, app_nil_r.
Qed.

Lemma mapping_loop_ext (fuel : nat) (sc sc' : Scale) (mapping : dict ascii string) (idx : nat) :
  (∀ d, d ∈ degrees → pitchFromDegree sc d = pitchFromDegree sc' d) →
  mapping_loop fuel sc mapping idx = mapping_loop fuel sc' mapping idx.
Proof.
  intros Hsame. revert mapping idx.
  induction fuel as [|fuel IH]; intros mapping idx; cbn [mapping_loop]; [done|].
  destruct (length mapping <? 26)%nat; [|done].
  destruct (degrees !! (idx mod degree_count)) as [d|] eqn:Hd; [|done].
  rewrite (Hsame d) by (by eapply list_elem_of_lookup_2).
  destruct (pitchFromDegree sc' d); [|done].
  destruct (ascii_lowercase !! idx); [|done]. apply IH.
Qed.

Lemma dict_set_fresh {K V} `{EqDecision K} (d : dict K V) (k : K) (v : V) :
  k ∉ d.*1 → dict_set d k v = d ++ [(k, v)].
Proof.
  induction d as [|[k' v'] d IH]; intros Hk; [done|].
  rewrite fmap_cons in Hk. apply not_elem_of_cons in Hk as [Hne Hk].
  simpl. rewrite decide_False by done. by rewrite IH.
Qed.

Lemma ascii_lowercase_NoDup : NoDup ascii_lowercase.
Proof. apply (bool_decide_unpack _). vm_compute. exact I. Qed.

(** The loop of [create_letter_note_mapping] ends within 26 rounds, on any
    scale: it returns the empty dictionary (a degree raised) or a mapping
    whose keys are the 26 letters. *)
Lemma mapping_loop_returns (fuel : nat) (sc : Scale) (mapping : dict ascii string) (idx : nat) :
  mapping.*1 = take idx ascii_lowercase → idx ≤ 26 → 26 ≤ idx + fuel →
  ∃ m, mapping_loop fuel sc mapping idx = Returned m ∧ (m = [] ∨ m.*1 = ascii_lowercase).
Proof.
  revert mapping idx. induction fuel as [|fuel IH]; intros mapping idx Hkeys Hidx Hfuel.
  - assert (idx = 26) as -> by lia. exists mapping.
    split; [|by right].
    assert (Hlen : length mapping = 26) by (by rewrite <- (length_fmap fst), Hkeys).
    simpl. by rewrite Hlen.
  - assert (Hlen : length mapping = idx).
    { rewrite <- (length_fmap fst), Hkeys, length_take.
      change (length ascii_lowercase) with 26. lia. }
    cbn [mapping_loop]. rewrite Hlen.
    destruct (Nat.ltb_spec idx 26) as [Hlt|Hge].
    + destruct (lookup_lt_is_Some_2 degrees (idx mod degree_count)) as [d Hd].
      { change (length degrees) with 7. change degree_count with 7. apply Nat.mod_upper_bound. lia. }
      rewrite Hd. destruct (pitchFromDegree sc d) as [pitch_name|]; [|by eexists; eauto].
      destruct (lookup_lt_is_Some_2 ascii_lowercase idx) as [letter Hletter]; [done|].
      rewrite Hletter. apply IH; [|lia|lia].
      pose proof ascii_lowercase_NoDup as Hnd.
      rewrite <- (take_drop_middle _ _ _ Hletter) in Hnd.
      apply NoDup_app in Hnd as (_ & Hnotin & _).
      rewrite dict_set_fresh.
      * rewrite fmap_app, Hkeys. simpl. replace (idx + 1) with (S idx) by lia.
        by rewrite (take_S_r _ _ _ Hletter).
      * rewrite Hkeys. intros Hin. apply (Hnotin _ Hin). left.
    + assert (idx = 26) as -> by lia. exists mapping. split; [done|]. by right.
Qed.

Lemma create_letter_note_mapping_returns (sc : Scale) :
  ∃ m, create_letter_note_mapping sc = Returned m ∧ (m = [] ∨ m.*1 = ascii_lowercase).
Proof. apply mapping_loop_returns; [done|lia|lia]. Qed.

Lemma create_letter_note_mapping_names (sc : Scale) (n1 n2 n3 n4 n5 n6 n7 : string) :
  pitchFromDegree sc 1 = Some n1 → pitchFromDegree sc 2 = Some n2 →
  pitchFromDegree sc 3 = Some n3 → pitchFromDegree sc 4 = Some n4 →
  pitchFromDegree sc 5 = Some n5 → pitchFromDegree sc 6 = Some n6 →
  pitchFromDegree sc 7 = Some n7 →
  create_letter_note_mapping sc =
    Returned (zip ascii_lowercase
                [n1; n2; n3; n4; n5; n6; n7; n1; n2; n3; n4; n5; n6; n7;
                 n1; n2; n3; n4; n5; n6; n7; n1; n2; n3; n4; n5]).
Proof.
  intros H1 H2 H3 H4 H5 H6 H7. unfold create_letter_note_mapping.
  rewrite (mapping_loop_ext _ sc (scale_of_names [n1; n2; n3; n4; n5; n6; n7])).
  - vm_compute. reflexivity.
  - intros d Hd. unfold degrees in Hd. simpl in Hd.
    repeat (apply elem_of_cons in Hd as [->|Hd]; [done|]). by apply elem_of_nil in Hd.
Qed.

Lemma reverse_mapping_groups (n1 n2 n3 n4 n5 n6 n7 : string) :
  NoDup [n1; n2; n3; n4; n5; n6; n7] →
  reverse_mapping
    (zip ascii_lowercase
       [n1; n2; n3; n4; n5; n6; n7; n1; n2; n3; n4; n5; n6; n7;
        n1; n2; n3; n4; n5; n6; n7; n1; n2; n3; n4; n5])
  = list_to_map
      [ (n1, chars "ahov"); (n2, chars "bipw"); (n3, chars "cjqx"); (n4, chars "dkry");
        (n5, chars "elsz"); (n6, chars "fmt"); (n7, chars "gnu") ].
Proof.
  intros Hnd.
  assert (Hne : n1 ≠ n2 ∧ n1 ≠ n3 ∧ n1 ≠ n4 ∧ n1 ≠ n5 ∧ n1 ≠ n6 ∧ n1 ≠ n7 ∧
                n2 ≠ n3 ∧ n2 ≠ n4 ∧ n2 ≠ n5 ∧ n2 ≠ n6 ∧ n2 ≠ n7 ∧
                n3 ≠ n4 ∧ n3 ≠ n5 ∧ n3 ≠ n6 ∧ n3 ≠ n7 ∧
                n4 ≠ n5 ∧ n4 ≠ n6 ∧ n4 ≠ n7 ∧ n5 ≠ n6 ∧ n5 ≠ n7 ∧ n6 ≠ n7).
  { repeat (apply NoDup_cons in Hnd as [?%not_elem_of_cons Hnd]).
    repeat match goal with H : _ ∧ _ |- _ => destruct H end.
    repeat match goal with H : _ ∉ _ :: _ |- _ => apply not_elem_of_cons in H as [? ?] end.
    repeat split; assumption. }
  destruct Hne as (?&?&?&?&?&?&?&?&?&?&?&?&?&?&?&?&?&?&?&?&?).
  apply map_eq. intros k. rewrite reverse_mapping_lookup.
  cbn [zip zip_with ascii_lowercase chars String.list_ascii_of_string list_to_map foldr].
  destruct (decide (k = n1)) as [->|?];
    [filter_by_name; by simplify_map_eq|].
  destruct (decide (k = n2)) as [->|?];
    [filter_by_name; by simplify_map_eq|].
  destruct (decide (k = n3)) as [->|?];
    [filter_by_name; by simplify_map_eq|].
  destruct (decide (k = n4)) as [->|?];
    [filter_by_name; by simplify_map_eq|].
  destruct (decide (k = n5)) as [->|?];
    [filter_by_name; by simplify_map_eq|].
  destruct (decide (k = n6)) as [->|?];
    [filter_by_name; by simplify_map_eq|].
  destruct (decide (k = n7)) as [->|?];
    [filter_by_name; by simplify_map_eq|].
  filter_by_name. by simplify_map_eq.
Qed.

Lemma sum_list_perm (l k : list nat) : l ≡ₚ k → sum_list l = sum_list k.
Proof. induction 1; simpl; lia. Qed.

(** C6. For a scale whose seven degrees have pairwise distinct pitch
    names, [create_letter_note_mapping] assigns the 26 letters, and the
    inverse mapping has 7 keys whose letter groups have 3 or 4 letters, 26
    in all: five groups of 4 and two groups of 3. *)
Theorem letter_groups_of_scale (sc : Scale) :
  Forall (λ d, is_Some (pitchFromDegree sc d)) degrees →
  NoDup (pitchFromDegree sc <$> degrees) →
  ∃ mapping,
    create_letter_note_mapping sc = Returned mapping ∧
    mapping.*1 = ascii_lowercase ∧
    size (reverse_mapping mapping) = 7 ∧
    map_Forall (λ _ letters, length letters = 3 ∨ length letters = 4)
      (reverse_mapping mapping) ∧
    group_sizes (reverse_mapping mapping) ≡ₚ [4; 4; 4; 4; 4; 3; 3] ∧
    sum_list (group_sizes (reverse_mapping mapping)) = 26 ∧
    length (filter (λ k, k = 4) (group_sizes (reverse_mapping mapping))) = 5 ∧
    length (filter (λ k, k = 3) (group_sizes (reverse_mapping mapping))) = 2.
Proof.
  intros Hsome Hnd. unfold degrees in *. cbn [seq fmap list_fmap] in *.
  apply Forall_cons in Hsome as [[n1 H1] Hsome]. apply Forall_cons in Hsome as [[n2 H2] Hsome].
  apply Forall_cons in Hsome as [[n3 H3] Hsome]. apply Forall_cons in Hsome as [[n4 H4] Hsome].
  apply Forall_cons in Hsome as [[n5 H5] Hsome]. apply Forall_cons in Hsome as [[n6 H6] Hsome].
  apply Forall_cons in Hsome as [[n7 H7] _].
  rewrite H1, H2, H3, H4, H5, H6, H7 in Hnd.
  change (NoDup (Some <$> [n1; n2; n3; n4; n5; n6; n7])) in Hnd.
  apply (NoDup_fmap_1 Some) in Hnd.
  eexists. split; [by apply create_letter_note_mapping_names|].
  split; [done|].
  rewrite reverse_mapping_groups by done.
  match goal with |- context [list_to_map ?l] => set (groups := l) end.
  assert (Hperm : map_to_list (list_to_map groups : gmap string (list ascii)) ≡ₚ groups).
  { apply map_to_list_to_map. done. }
  assert (Hsizes : group_sizes (list_to_map groups) ≡ₚ [4; 4; 4; 4; 4; 3; 3]).
  { unfold group_sizes. by rewrite Hperm. }
  split; [|split; [|split; [done|]]].
  - by rewrite <- length_map_to_list, Hperm.
  - apply map_Forall_to_list. rewrite Hperm. unfold groups.
    repeat (constructor; [simpl; lia|]). constructor.
  - split; [by rewrite (sum_list_perm _ _ Hsizes)|]. by rewrite !Hsizes.
Qed.

Lemma letter_groups_of_scale_witness :
  ∃ mapping,
    create_letter_note_mapping c_major = Returned mapping ∧
    mapping.*1 = ascii_lowercase ∧
    size (reverse_mapping mapping) = 7 ∧
    map_Forall (λ _ letters, length letters = 3 ∨ length letters = 4)
      (reverse_mapping mapping) ∧
    group_sizes (reverse_mapping mapping) ≡ₚ [4; 4; 4; 4; 4; 3; 3] ∧
    sum_list (group_sizes (reverse_mapping mapping)) = 26 ∧
    length (filter (λ k, k = 4) (group_sizes (reverse_mapping mapping))) = 5 ∧
    length (filter (λ k, k = 3) (group_sizes (reverse_mapping mapping))) = 2.
Proof.
  apply (letter_groups_of_scale c_major).
  - apply (bool_decide_unpack _). vm_compute. exact I.
  - apply (bool_decide_unpack _). vm_compute. exact I.
Defined.

(** ** The search orchestrator *)

Lemma segment_into_words_nil (W P : gset string) (mwl : Z) :
  segment_into_words [] W P mwl = Some [].
Proof. reflexivity. Qed.

Lemma process_root_mode_empty_melody (enh : string → option string) (rm : root_mode)
    (W P : gset string) (mwl : Z) (N E : gset string) :
  process_root_mode enh rm [] W P mwl N E = [].
Proof.
  destruct rm as [[root mode] class]. unfold process_root_mode.
  destruct (class root) as [sc|]; [|done].
  destruct (create_letter_note_mapping sc) as [[|kv mapping]| |]; done.
Qed.

(** C4. The code does not abort on the empty melody. For a tone row
    without note tokens [decode_tone_row_parallel] makes no test, where the
    prompt of [melody_decoder.py] stops at an empty input line with
    [No input provided.]: the validation of the notes has nothing to
    reject, every work item is dispatched, none of them yields a record,
    and the run ends with the message that no valid phrases were found. *)
Theorem empty_melody_reports_no_phrases (enh : string → option string) (tone_row : string)
    (root_modes : list root_mode) (W P : gset string) (mwl : Z) (N E : gset string) :
  split tone_row = [] →
  decode_tone_row_parallel enh tone_row root_modes W P mwl N E
    = [InfoStarting (length root_modes); InfoTotal 0; InfoNoPhrases].
Proof.
  intros Hsplit. unfold decode_tone_row_parallel. rewrite Hsplit. cbn [fmap list_fmap validate_notes].
  assert (Hflat : concat ((λ rm, process_root_mode enh rm [] W P mwl N E) <$> root_modes) = []).
  { induction root_modes as [|rm rms IH]; [done|].
    rewrite fmap_cons. cbn [concat]. by rewrite process_root_mode_empty_melody, IH. }
  by rewrite Hflat.
Qed.

Lemma empty_melody_reports_no_phrases_witness :
  decode_tone_row_parallel enharmonic_name "" [("C", "Major", MajorScale)]
      {[ "cat" ]} ∅ 3 ∅ {[ "cat" ]}
    = [InfoStarting 1; InfoTotal 0; InfoNoPhrases].
Proof.
  apply (empty_melody_reports_no_phrases enharmonic_name "" [("C", "Major", MajorScale)]).
  vm_compute. reflexivity.
Defined.

(** The same run, read as the claim reads it: no error is logged and the
    work item is dispatched, so the run is not aborted. *)
Lemma empty_melody_not_aborted :
  ¬ aborted (decode_tone_row_parallel enharmonic_name "" [("C", "Major", MajorScale)]
               {[ "cat" ]} ∅ 3 ∅ {[ "cat" ]}).
Proof.
  intros [_ Hnot]. apply Hnot. exists 1. vm_compute. left.
Qed.

(** The report of [decoder.py] drops no phrase: whatever its word count,
    the phrase of every result is among the phrases printed, and these are
    printed in the order of their code points. *)
Lemma dict_get_set {K V} `{EqDecision K} (d : dict K V) (k k' : K) (v : V) :
  dict_get (dict_set d k v) k' = if decide (k' = k) then Some v else dict_get d k'.
Proof.
  induction d as [|[k0 v0] d IH]; simpl.
  - by destruct (decide (k' = k)).
  - destruct (decide (k = k0)) as [->|Hne]; simpl.
    + by destruct (decide (k' = k0)).
    + destruct (decide (k' = k0)) as [->|Hne'].
      * by rewrite decide_False by done.
      * apply IH.
Qed.

Lemma dict_get_values {K V} `{EqDecision K} (d : dict K V) (k : K) (v : V) :
  dict_get d k = Some v → v ∈ dict_values d.
Proof.
  unfold dict_values. induction d as [|[k0 v0] d IH]; simpl; [done|].
  destruct (decide (k = k0)).
  - intros [= ->]. left.
  - intros Hget. right. by apply IH.
Qed.

Lemma unique_results_keep_phrases (flat_results : list ResultRecord) (d : dict string ResultRecord) :
  (∀ k, is_Some (dict_get d k) → is_Some (dict_get (foldl unique_step d flat_results) k)) ∧
  (∀ r, r ∈ flat_results → is_Some (dict_get (foldl unique_step d flat_results) (phrase r))).
Proof.
  revert d. induction flat_results as [|r rs IH]; intros d.
  { split; [done|]. intros r Hr. by apply elem_of_nil in Hr. }
  cbn [foldl]. destruct (IH (unique_step d r)) as [Hkeep Hnew].
  assert (Hstep : ∀ k, is_Some (dict_get d k) ∨ k = phrase r →
                       is_Some (dict_get (unique_step d r) k)).
  { intros k Hk. unfold unique_step.
    destruct (dict_get d (phrase r)) as [kept|] eqn:Hget.
    - destruct (_ <? _)%nat.
      + rewrite dict_get_set. destruct (decide _); [done|]. by destruct Hk.
      + destruct Hk as [?| ->]; [done|]. by rewrite Hget.
    - rewrite dict_get_set. destruct (decide _); [done|]. by destruct Hk. }
  split.
  - intros k Hk. apply Hkeep, Hstep. by left.
  - intros r' [->|Hr']%elem_of_cons; [|by apply Hnew].
    apply Hkeep, Hstep. by right.
Qed.

Lemma unique_results_keyed_by_phrase (flat_results : list ResultRecord)
    (d : dict string ResultRecord) :
  (∀ k v, dict_get d k = Some v → phrase v = k) →
  ∀ k v, dict_get (foldl unique_step d flat_results) k = Some v → phrase v = k.
Proof.
  revert d. induction flat_results as [|r rs IH]; intros d Hd; [done|].
  cbn [foldl]. apply IH. intros k v. unfold unique_step.
  destruct (dict_get d (phrase r)) as [kept|].
  - destruct (_ <? _)%nat; [|by apply Hd].
    rewrite dict_get_set. destruct (decide _) as [->|]; [by intros [= ->]|by apply Hd].
  - rewrite dict_get_set. destruct (decide _) as [->|]; [by intros [= ->]|by apply Hd].
Qed.

Lemma elem_of_insert_by_phrase (r x : ResultRecord) (rs : list ResultRecord) :
  x ∈ insert_by_phrase r rs ↔ x = r ∨ x ∈ rs.
Proof.
  induction rs as [|r' rs IH]; simpl.
  - rewrite list_elem_of_singleton, elem_of_nil. tauto.
  - destruct (String.leb _ _); rewrite !elem_of_cons; [tauto|]. rewrite IH. tauto.
Qed.

Lemma elem_of_sorted_by_phrase (x : ResultRecord) (rs : list ResultRecord) :
  x ∈ sorted_by_phrase rs ↔ x ∈ rs.
Proof.
  unfold sorted_by_phrase. induction rs as [|r rs IH]; simpl; [done|].
  by rewrite elem_of_insert_by_phrase, elem_of_cons, IH.
Qed.

Lemma insert_by_phrase_sorted (r : ResultRecord) (rs : list ResultRecord) :
  Sorted (λ a b, String.leb (phrase a) (phrase b) = true) rs →
  Sorted (λ a b, String.leb (phrase a) (phrase b) = true) (insert_by_phrase r rs).
Proof.
  induction 1 as [|r' rs' Hrs' IH Hhd]; simpl; [by repeat constructor|].
  destruct (String.leb (phrase r) (phrase r')) eqn:Hle.
  - constructor; [by constructor|by constructor].
  - constructor; [done|].
    assert (Hge : String.leb (phrase r') (phrase r) = true).
    { destruct (String.leb_total (phrase r) (phrase r')); [congruence|done]. }
    destruct rs' as [|r'' rs'']; simpl; [constructor; exact Hge|].
    destruct (String.leb (phrase r) (phrase r'')); constructor; [exact Hge|].
    by inversion Hhd.
Qed.

Lemma sorted_by_phrase_sorted (rs : list ResultRecord) :
  Sorted (λ a b, String.leb (phrase a) (phrase b) = true) (sorted_by_phrase rs).
Proof.
  unfold sorted_by_phrase. induction rs as [|r rs IH]; simpl; [constructor|].
  by apply insert_by_phrase_sorted.
Qed.

Lemma best_phrases_keep_every_phrase (flat_results : list ResultRecord) (r : ResultRecord) :
  r ∈ flat_results → ∃ r', r' ∈ best_phrases flat_results ∧ phrase r' = phrase r.
Proof.
  intros Hr. destruct (unique_results_keep_phrases flat_results []) as [_ Hnew].
  destruct (Hnew r Hr) as [r' Hr'].
  exists r'. split.
  - unfold best_phrases. apply elem_of_sorted_by_phrase. by eapply dict_get_values.
  - eapply (unique_results_keyed_by_phrase flat_results []); [|exact Hr'].
    intros k v [=].
Qed.

(** C2, at the tone row [C D] decoded in C major with the words [a], [i]
    and [hi]: the candidates [ai] and [hi] give the phrases [a i], of two
    words, and [hi], of one. [decoder.py] prints both under the header of
    the phrases with the fewest words; the report of
    [audiocipher_decoder.py] on the same results keeps the minimum only.
    In general the report of [decoder.py] keeps the phrase of every result,
    whatever its word count. *)
Theorem decoder_reports_beyond_minimum :
  decode_tone_row_parallel enharmonic_name "C D" [("C", "Major", MajorScale)]
      {[ "a"; "i"; "hi" ]} (build_prefix_set {[ "a"; "i"; "hi" ]})
      (max_word_length {[ "a"; "i"; "hi" ]}) ∅ {[ "a"; "i"; "hi" ]}
    = [ InfoStarting 1; InfoTotal 2; InfoBestPhrases;
        PrintPhrase "a i" "C" "Major"; PrintPhrase "hi" "C" "Major" ] ∧
  process_root_mode enharmonic_name ("C", "Major", MajorScale) ["C"; "D"]
      {[ "a"; "i"; "hi" ]} (build_prefix_set {[ "a"; "i"; "hi" ]})
      (max_word_length {[ "a"; "i"; "hi" ]}) ∅ {[ "a"; "i"; "hi" ]}
    = [ {| phrase := "a i"; decoded_root_note := "C"; decoded_scale := "Major";
           num_words := 2 |};
        {| phrase := "hi"; decoded_root_note := "C"; decoded_scale := "Major";
           num_words := 1 |} ] ∧
  AudiocipherDecoder.report
      [ {| phrase := "a i"; decoded_root_note := "C"; decoded_scale := "Major";
           num_words := 2 |};
        {| phrase := "hi"; decoded_root_note := "C"; decoded_scale := "Major";
           num_words := 1 |} ]
    = [ InfoBestPhrases; PrintPhrase "hi" "C" "Major" ] ∧
  ∀ flat_results r, r ∈ flat_results →
    ∃ r', r' ∈ best_phrases flat_results ∧ phrase r' = phrase r.
Proof.
  split; [vm_compute; reflexivity|]. split; [vm_compute; reflexivity|].
  split; [vm_compute; reflexivity|]. apply best_phrases_keep_every_phrase.
Qed.

(** Every record of a run is made of members of the word set given to the
    segmenter. *)
Lemma candidate_step_from_words (root mode : string) (W P : gset string) (mwl : Z)
    (N E : gset string) (results : list ResultRecord) (c : list ascii) :
  Forall (from_words W) results →
  Forall (from_words W) (candidate_step root mode W P mwl N E results c).
Proof.
  intros Hres. unfold candidate_step.
  destruct (segment_into_words c W P mwl) as [[|w ws]|] eqn:Hseg; try done.
  destruct (is_valid_phrase _ _ _); [|done].
  apply Forall_app. split; [done|]. apply Forall_singleton.
  exists (w :: ws). split; [done|]. split; [|done].
  by destruct (segment_into_words_sound c W P mwl _ Hseg).
Qed.

Lemma process_root_mode_from_words (enh : string → option string) (rm : root_mode)
    (melody : list string) (W P : gset string) (mwl : Z) (N E : gset string) :
  Forall (from_words W) (process_root_mode enh rm melody W P mwl N E).
Proof.
  destruct rm as [[root mode] class]. unfold process_root_mode.
  destruct (class root) as [sc|]; [|constructor].
  destruct (create_letter_note_mapping sc) as [[|kv mapping]| |]; try constructor.
  destruct (decode_melody _ _ _) as [|c cs]; [constructor|].
  assert (Hfold : ∀ l results, Forall (from_words W) results →
            Forall (from_words W) (foldl (candidate_step root mode W P mwl N E) results l)).
  { induction l as [|c' l IH]; intros results Hres; [exact Hres|].
    cbn [foldl]. apply IH. by apply candidate_step_from_words. }
  apply Hfold. constructor.
Qed.

Lemma dict_set_values {K V} `{EqDecision K} (P : V → Prop) (d : dict K V) (k : K) (v : V) :
  Forall P (dict_values d) → P v → Forall P (dict_values (dict_set d k v)).
Proof.
  unfold dict_values. intros Hd Hv. induction d as [|[k' v'] d IH]; simpl.
  - by repeat constructor.
  - apply Forall_cons in Hd as [Hv' Hd]. destruct (decide (k = k')); simpl.
    + by constructor.
    + constructor; [done|]. by apply IH.
Qed.

Lemma unique_results_values (P : ResultRecord → Prop) (flat_results : list ResultRecord) :
  Forall P flat_results → Forall P (dict_values (foldl unique_step [] flat_results)).
Proof.
  assert (Hfold : ∀ (d : dict string ResultRecord), Forall P (dict_values d) →
            Forall P flat_results → Forall P (dict_values (foldl unique_step d flat_results))).
  { induction flat_results as [|r rs IH]; intros d Hd Hall; [exact Hd|].
    apply Forall_cons in Hall as [Hr Hrs]. cbn [foldl]. apply IH; [|done].
    unfold unique_step. destruct (dict_get d (phrase r)) as [kept|].
    - destruct (_ <? _)%nat; [by apply dict_set_values|done].
    - by apply dict_set_values. }
  apply Hfold. constructor.
Qed.

Lemma sorted_by_phrase_values (P : ResultRecord → Prop) (rs : list ResultRecord) :
  Forall P rs → Forall P (sorted_by_phrase rs).
Proof.
  unfold sorted_by_phrase. induction 1 as [|r rs Hr _ IH]; simpl; [constructor|].
  induction IH as [|r' rs' Hr' Hrs' IH']; simpl; [by repeat constructor|].
  destruct (String.leb _ _); repeat constructor; done.
Qed.

Lemma report_from_words (W : gset string) (flat_results : list ResultRecord)
    (text root scale : string) :
  Forall (from_words W) flat_results →
  PrintPhrase text root scale ∈ report flat_results →
  ∃ ws, ws ≠ [] ∧ Forall (λ w, w ∈ W) ws ∧ text = phrase_text ws.
Proof.
  intros Hall Hin. unfold report in Hin.
  assert (Hbest : Forall (from_words W) (best_phrases flat_results)).
  { unfold best_phrases. by apply sorted_by_phrase_values, unique_results_values. }
  destruct (foldl unique_step [] flat_results).
  - apply list_elem_of_singleton in Hin. done.
  - apply elem_of_cons in Hin as [?|Hin]; [done|].
    apply list_elem_of_fmap in Hin as (r & Heq & Hr).
    rewrite Forall_forall in Hbest. specialize (Hbest r Hr).
    injection Heq as -> _ _. done.
Qed.

Lemma main_reports_english_words_only (enh : string → option string)
    (modes : dict string (string → option Scale)) (tone_row : string)
    (E N : gset string) (text root scale : string) :
  PrintPhrase text root scale ∈ main_for_tone_row enh modes tone_row E N →
  ∃ ws, ws ≠ [] ∧ Forall (λ w, w ∈ E) ws ∧ text = phrase_text ws.
Proof.
  unfold main_for_tone_row. destruct (_ && _).
  { intros Hin. by apply list_elem_of_singleton in Hin. }
  cbn zeta. unfold decode_tone_row_parallel. cbn zeta.
  destruct (validate_notes _ _) as [e|melody] eqn:Hval.
  - intros Hin. apply list_elem_of_singleton in Hin. subst e.
    clear -Hval. exfalso. revert Hval. generalize (upper <$> split tone_row). intros l.
    induction l as [|n l IH]; [done|]. simpl.
    destruct (bool_decide _).
    + destruct (validate_notes enh l); [|done]. intros [= ->]. by apply IH.
    + destruct (enh n) as [name|]; [|done]. destruct (bool_decide _); [|done].
      destruct (validate_notes enh l); [|done]. intros [= ->]. by apply IH.
  - intros Hin. apply elem_of_cons in Hin as [?|Hin]; [done|].
    apply elem_of_cons in Hin as [?|Hin]; [done|].
    eapply report_from_words; [|done].
    apply Forall_concat, Forall_fmap, Forall_forall. intros rm _.
    apply process_root_mode_from_words.
Qed.

Lemma phrase_text_cons (w : string) (ws : list string) :
  ∃ rest, phrase_text (w :: ws) = w +:+ rest.
Proof.
  unfold phrase_text. destruct ws as [|w' ws]; simpl.
  - exists "". apply chars_inj. by rewrite chars_app, app_nil_r.
  - eauto.
Qed.

(** C3, at the tone row [C F C] with the English word [cat] and the name
    [ada]. C major decodes the tone row to the candidate [ada], which the
    combined set segments as the name; but [main] hands the segmenter the
    English words alone: the work item of C major yields nothing, and
    whatever the catalog of modes, the run never reports the phrase [ada]. *)
Theorem main_never_reports_a_name :
  chars "ada" ∈ decode_melody enharmonic_name c_major_letters ["C"; "F"; "C"] ∧
  segment_into_words (chars "ada") ({[ "cat" ]} ∪ {[ "ada" ]})
      (build_prefix_set ({[ "cat" ]} ∪ {[ "ada" ]}))
      (max_word_length ({[ "cat" ]} ∪ {[ "ada" ]})) = Some ["ada"] ∧
  decode_tone_row_parallel enharmonic_name "C F C" [("C", "Major", MajorScale)]
      {[ "cat" ]} (build_prefix_set ({[ "cat" ]} ∪ {[ "ada" ]}))
      (max_word_length ({[ "cat" ]} ∪ {[ "ada" ]})) {[ "ada" ]} {[ "cat" ]}
    = [InfoStarting 1; InfoTotal 0; InfoNoPhrases] ∧
  ∀ enh modes root scale,
    PrintPhrase "ada" root scale ∉ main_for_tone_row enh modes "C F C" {[ "cat" ]} {[ "ada" ]}.
Proof.
  split; [apply (bool_decide_unpack _); vm_compute; exact I|].
  split; [vm_compute; reflexivity|].
  split; [vm_compute; reflexivity|].
  intros enh modes root scale Hin.
  apply main_reports_english_words_only in Hin as (ws & Hne & Hall & Htext).
  destruct ws as [|w ws]; [done|]. apply Forall_cons in Hall as [Hw _].
  apply elem_of_singleton in Hw. subst w.
  destruct (phrase_text_cons "cat" ws) as [rest Hrest]. rewrite Hrest in Htext.
  apply (f_equal chars) in Htext. rewrite chars_app in Htext. done.
Qed.

(** * Further properties of the engine *)

(** ** The lexicon *)

Lemma substring_split (i : nat) (w : string) :
  i ≤ String.length w →
  String.substring 0 i w +:+ String.substring i (String.length w - i) w = w.
Proof.
  intros Hi. apply chars_inj. rewrite chars_app, !chars_substring, drop_0.
  rewrite <- chars_length. rewrite <- length_drop, firstn_all. apply take_drop.
Qed.

Lemma elem_of_proper_prefixes (p word : string) :
  p ∈ proper_prefixes word ↔ p ≠ "" ∧ ∃ rest, rest ≠ "" ∧ p +:+ rest = word.
Proof.
  unfold proper_prefixes. rewrite list_elem_of_fmap. split.
  - intros (i & -> & Hi). apply elem_of_seq in Hi.
    assert (Hlen : length (chars (String.substring 0 i word)) = i).
    { rewrite chars_substring, drop_0, length_take, chars_length. lia. }
    split.
    + intros Heq. rewrite Heq in Hlen. simpl in Hlen. lia.
    + exists (String.substring i (String.length word - i) word). split.
      * intros Heq. apply (f_equal (λ s, length (chars s))) in Heq.
        rewrite chars_substring, length_take, length_drop, chars_length in Heq.
        simpl in Heq. lia.
      * apply substring_split. lia.
  - intros (Hp & rest & Hrest & <-).
    assert (Hp' : String.length p ≠ 0) by (by destruct p).
    assert (Hr' : String.length rest ≠ 0) by (by destruct rest).
    exists (String.length p). split.
    + apply chars_inj. rewrite chars_substring, drop_0, chars_app, <- chars_length.
      by rewrite take_app_length.
    + apply elem_of_seq. rewrite <- !chars_length, chars_app, length_app, !chars_length. lia.
Qed.

Lemma elem_of_build_prefix_set (words : gset string) (p : string) :
  p ∈ build_prefix_set words ↔ ∃ word, word ∈ words ∧ p ∈ proper_prefixes word.
Proof.
  unfold build_prefix_set, set_fold. simpl.
  setoid_rewrite <- (elem_of_elements words).
  induction (elements words) as [|w ws IH]; simpl.
  - split; [by intros ?%not_elem_of_empty|]. by intros (w & Hw%elem_of_nil & _).
  - rewrite elem_of_union, elem_of_list_to_set, IH. split.
    + intros [Hp|(w' & Hw' & Hp)]; [exists w; split; [left|done]|].
      exists w'. split; [by right|done].
    + intros (w' & [->|Hw']%elem_of_cons & Hp); [by left|]. right. eauto.
Qed.

(** X1. The prefix set holds exactly the non-empty proper prefixes of the
    words: [p] is a member if and only if [p] is not empty and some word is
    [p] followed by a non-empty rest. *)
Theorem build_prefix_set_proper_prefixes (words : gset string) (p : string) :
  p ∈ build_prefix_set words ↔
    p ≠ "" ∧ ∃ rest, rest ≠ "" ∧ p +:+ rest ∈ words.
Proof.
  rewrite elem_of_build_prefix_set. split.
  - intros (word & Hword & Hp). apply elem_of_proper_prefixes in Hp as (Hne & rest & Hrest & <-).
    eauto.
  - intros (Hne & rest & Hrest & Hword). eexists. split; [done|].
    apply elem_of_proper_prefixes. eauto.
Qed.

(** X2. [max_word_length] is 0 for the empty set, bounds the length of
    every member, and is the length of some member of a non-empty set. *)
Theorem max_word_length_is_maximum (W : gset string) :
  (W = ∅ → max_word_length W = 0%Z) ∧
  (∀ w, w ∈ W → (Z.of_nat (String.length w) ≤ max_word_length W)%Z) ∧
  (W ≠ ∅ → ∃ w, w ∈ W ∧ max_word_length W = Z.of_nat (String.length w)).
Proof.
  split; [by intros ->|]. split; [apply max_word_length_covers|].
  intros Hne. unfold max_word_length, set_fold. simpl.
  assert (Hel : elements W ≠ []) by (by intros ?%elements_empty_inv%leibniz_equiv).
  setoid_rewrite <- (elem_of_elements W).
  induction (elements W) as [|x xs IH]; [done|]. simpl.
  destruct xs as [|y ys].
  - exists x. split; [left|]. simpl. lia.
  - destruct IH as (w & Hw & Hmax); [done|].
    destruct (Z.max_spec (Z.of_nat (String.length x))
                (foldr (λ word acc, Z.of_nat (String.length word) `max` acc)%Z 0%Z (y :: ys)))
      as [[_ ->]|[_ ->]].
    + exists w. split; [by right|done].
    + exists x. split; [left|done].
Qed.

(** X3. [is_valid_phrase] accepts exactly the non-empty phrases all of
    whose words are English words or names and whose one-letter words are
    [a] or [i]. *)
Theorem is_valid_phrase_iff (phrase : list string) (N E : gset string) :
  is_valid_phrase phrase N E = true ↔
    phrase ≠ [] ∧
    Forall (λ w, (w ∈ E ∨ w ∈ N) ∧ (String.length w = 1 → w = "a" ∨ w = "i")) phrase.
Proof.
  assert (Hloop : ∀ ws, is_valid_phrase_loop ws N E = true ↔
            Forall (λ w, (w ∈ E ∨ w ∈ N) ∧ (String.length w = 1 → w = "a" ∨ w = "i")) ws).
  { induction ws as [|w ws IH]; simpl; [by split|].
    rewrite Forall_cons, <- IH.
    destruct (Nat.eqb_spec (String.length w) 1) as [H1|H1]; simpl.
    - case_bool_decide as Hai; simpl.
      + unfold valid_single_letter_words in Hai.
        apply elem_of_union in Hai. rewrite !elem_of_singleton in Hai.
        rewrite bool_decide_union. case_bool_decide as Hm; simpl.
        * apply elem_of_union in Hm. tauto.
        * rewrite not_elem_of_union in Hm. split; [done|]. tauto.
      + split; [done|]. intros [[_ Hw] _]. destruct Hai.
        unfold valid_single_letter_words. destruct (Hw H1) as [-> | ->]; set_solver.
    - rewrite bool_decide_union. case_bool_decide as Hm; simpl.
      + apply elem_of_union in Hm. tauto.
      + rewrite not_elem_of_union in Hm. split; [done|]. tauto. }
  destruct phrase as [|w ws]; [by split; [|intros [? _]]|].
  unfold is_valid_phrase. rewrite Hloop. split; [done|]. by intros [_ ?].
Qed.

(** ** The lexicon loaders *)

Lemma lower_char_idemp (c : ascii) : lower_char (lower_char c) = lower_char c.
Proof. by destruct c as [[] [] [] [] [] [] [] []]. Qed.

Lemma is_space_lower_char (c : ascii) : is_space (lower_char c) = is_space c.
Proof. by destruct c as [[] [] [] [] [] [] [] []]. Qed.

Lemma lower_idemp (s : string) : lower (lower s) = lower s.
Proof.
  unfold lower. rewrite chars_join_chars, <- list_fmap_compose. f_equal.
  apply list_fmap_ext. intros _ c _. apply lower_char_idemp.
Qed.

Lemma lstrip_chars_fmap_lower (cs : list ascii) :
  lstrip_chars (lower_char <$> cs) = lower_char <$> lstrip_chars cs.
Proof.
  induction cs as [|c cs IH]; [done|]. simpl. rewrite is_space_lower_char.
  by destruct (is_space c).
Qed.

Lemma lstrip_chars_idemp (cs : list ascii) : lstrip_chars (lstrip_chars cs) = lstrip_chars cs.
Proof.
  induction cs as [|c cs IH]; [done|]. simpl.
  destruct (is_space c) eqn:Hc; [done|]. simpl. by rewrite Hc.
Qed.

Lemma lstrip_chars_suffix (cs : list ascii) : ∃ pre, cs = pre ++ lstrip_chars cs.
Proof.
  induction cs as [|c cs [pre IH]]; [by exists []|]. simpl.
  destruct (is_space c); [|by exists []]. exists (c :: pre). simpl. by f_equal.
Qed.

Lemma lstrip_chars_app (cs ds : list ascii) :
  lstrip_chars cs = cs → cs ≠ [] → lstrip_chars (cs ++ ds) = cs ++ ds.
Proof.
  destruct cs as [|c cs]; [done|]. simpl. intros H _.
  destruct (is_space c); [|done].
  destruct (lstrip_chars_suffix cs) as [pre Hpre].
  apply (f_equal length) in H. rewrite Hpre in H at 2.
  simpl in H. rewrite length_app in H. lia.
Qed.

(** The characters [strip] keeps start and end with no white space. *)
Lemma strip_chars_stripped (cs : list ascii) :
  let kept := reverse (lstrip_chars (reverse (lstrip_chars cs))) in
  lstrip_chars kept = kept ∧ lstrip_chars (reverse kept) = reverse kept.
Proof.
  cbn zeta. rewrite reverse_involutive, lstrip_chars_idemp. split; [|done].
  set (A := lstrip_chars cs).
  destruct (lstrip_chars_suffix (reverse A)) as [pre Hpre].
  set (B := lstrip_chars (reverse A)) in *.
  assert (HA : A = reverse B ++ reverse pre).
  { by rewrite <- (reverse_involutive A), Hpre, reverse_app. }
  destruct (decide (reverse B = [])) as [->|Hne]; [done|].
  assert (HAA : lstrip_chars A = A) by apply lstrip_chars_idemp.
  rewrite HA in HAA.
  destruct (reverse B) as [|c L]; [done|]. simpl in *.
  destruct (is_space c); [|done].
  destruct (lstrip_chars_suffix (L ++ reverse pre)) as [pre' Hpre'].
  apply (f_equal length) in HAA. rewrite Hpre' in HAA at 2. simpl in HAA.
  rewrite length_app in HAA. lia.
Qed.

Lemma strip_lower_strip (line : string) :
  strip (lower (strip line)) = lower (strip line).
Proof.
  unfold strip at 1, lower. rewrite chars_join_chars. f_equal.
  unfold strip. rewrite chars_join_chars.
  destruct (strip_chars_stripped (chars line)) as [Hl Hr]. cbn zeta in *.
  set (kept := reverse (lstrip_chars (reverse (lstrip_chars (chars line))))) in *.
  rewrite lstrip_chars_fmap_lower, Hl, <- fmap_reverse, lstrip_chars_fmap_lower, Hr.
  by rewrite fmap_reverse, reverse_involutive.
Qed.

Lemma elem_of_load_lines (lines : list string) (words : gset string) (w : string) :
  w ∈ foldl load_step words lines ↔
    w ∈ words ∨
    ∃ line, line ∈ lines ∧ w = lower (strip line) ∧ w ≠ "" ∧
            (1 < String.length w ∨ w = "a" ∨ w = "i").
Proof.
  revert words. induction lines as [|line lines IH]; intros words; simpl.
  - split; [by left|]. by intros [?|(line & Hin%elem_of_nil & _)].
  - rewrite IH. unfold load_step. cbn zeta.
    set (word := lower (strip line)).
    assert (Hkeep : (negb (bool_decide (word = "")) &&
              ((1 <? String.length word)%nat || bool_decide (word ∈ valid_single_letter_words))
              = true) ↔ word ≠ "" ∧ (1 < String.length word ∨ word = "a" ∨ word = "i")).
    { rewrite andb_true_iff, negb_true_iff, bool_decide_eq_false, orb_true_iff,
        Nat.ltb_lt, bool_decide_eq_true.
      unfold valid_single_letter_words. rewrite elem_of_union, !elem_of_singleton. tauto. }
    destruct (negb _ && _) eqn:Hb.
    + destruct (proj1 Hkeep eq_refl) as [Hne Hlen].
      rewrite elem_of_union, elem_of_singleton. split.
      * intros [[->|?]|(l & Hl & ?)]; [right; exists line; split; [left|done]|by left|].
        right. exists l. split; [by right|done].
      * intros [?|(l & [->|Hl]%elem_of_cons & Hw & ?)]; [by left; right|by left; left|].
        right. eauto.
    + split.
      * intros [?|(l & Hl & ?)]; [by left|]. right. exists l. split; [by right|done].
      * intros [?|(l & [->|Hl]%elem_of_cons & Hw & Hne & Hlen)]; [by left| |right; eauto].
        fold word in Hw. subst w. by pose proof (proj2 Hkeep (conj Hne Hlen)).
Qed.

(** X4. What the loaders guarantee of the lexicon: a missing file gives the
    empty set, and every word loaded is a line of the file stripped and in
    lower case, not empty, and, when it has one letter, [a] or [i]. *)
Theorem load_word_list_members (file : option (list string)) (w : string) :
  w ∈ load_word_list file ↔
    ∃ lines line, file = Some lines ∧ line ∈ lines ∧ w = lower (strip line) ∧
      w ≠ "" ∧ (String.length w = 1 → w = "a" ∨ w = "i").
Proof.
  destruct file as [lines|]; simpl.
  - rewrite elem_of_load_lines. split.
    + intros [?%not_elem_of_empty|(line & Hl & Hw & Hne & Hlen)]; [done|].
      exists lines, line. repeat split; try done. intros H1. destruct Hlen as [?|?]; [lia|done].
    + intros (lines' & line & [= <-] & Hl & Hw & Hne & Hlen). right.
      exists line. repeat split; try done.
      destruct (decide (String.length w = 1)) as [H1|H1]; [right; by apply Hlen|].
      left. destruct w as [|? [|]]; simpl in *; try done; lia.
  - split; [by intros ?%not_elem_of_empty|]. by intros (? & ? & [=] & _).
Qed.

(** X5. A loaded word is in normal form: lowering or stripping it again
    changes nothing, so it is free of upper-case letters and of white space
    at its ends. The names are loaded the same way. *)
Theorem loaded_words_normal (file : option (list string)) (w : string) :
  w ∈ load_word_list file ∨ w ∈ load_name_list file →
  lower w = w ∧ strip w = w.
Proof.
  assert (Hsame : load_name_list file = load_word_list file) by done.
  rewrite Hsame. intros Hw. assert (Hin : w ∈ load_word_list file) by tauto. clear Hw.
  destruct file as [lines|]; simpl in Hin; [|by apply not_elem_of_empty in Hin].
  apply elem_of_load_lines in Hin as [?%not_elem_of_empty|(line & _ & -> & _)]; [done|].
  split; [apply lower_idemp|apply strip_lower_strip].
Qed.

Lemma loaded_words_normal_witness : lower "cat" = "cat" ∧ strip "cat" = "cat".
Proof.
  apply (loaded_words_normal (Some ["  Cat
"; "x"; "I"]) "cat").
  left. apply (bool_decide_unpack _). vm_compute. exact I.
Defined.

(** ** The scale mapper *)

Lemma mapping_loop_step (fuel : nat) (sc : Scale) (mapping : dict ascii string) (idx d : nat)
    (pitch_name : string) (letter : ascii) :
  (length mapping <? 26)%nat = true →
  degrees !! (idx mod degree_count) = Some d →
  pitchFromDegree sc d = Some pitch_name →
  ascii_lowercase !! idx = Some letter →
  mapping_loop (S fuel) sc mapping idx
    = mapping_loop fuel sc (dict_set mapping letter pitch_name) (idx + 1).
Proof. intros Hlen Hd Hp Hl. cbn [mapping_loop]. by rewrite Hlen, Hd, Hp, Hl. Qed.

Lemma mapping_loop_raise (fuel : nat) (sc : Scale) (mapping : dict ascii string) (idx d : nat) :
  (length mapping <? 26)%nat = true →
  degrees !! (idx mod degree_count) = Some d →
  pitchFromDegree sc d = None →
  mapping_loop (S fuel) sc mapping idx = Returned [].
Proof. intros Hlen Hd Hp. cbn [mapping_loop]. by rewrite Hlen, Hd, Hp. Qed.

Lemma create_letter_note_mapping_raise (sc : Scale) (d : nat) :
  d ∈ degrees → pitchFromDegree sc d = None → create_letter_note_mapping sc = Returned [].
Proof.
  intros Hd Hnone. unfold create_letter_note_mapping.
  destruct (pitchFromDegree sc 1) as [n1|] eqn:H1;
    [erewrite mapping_loop_step; [|reflexivity|reflexivity|exact H1|reflexivity]
    |by erewrite mapping_loop_raise; [|reflexivity|reflexivity|exact H1]].
  destruct (pitchFromDegree sc 2) as [n2|] eqn:H2;
    [erewrite mapping_loop_step; [|reflexivity|reflexivity|exact H2|reflexivity]
    |by erewrite mapping_loop_raise; [|reflexivity|reflexivity|exact H2]].
  destruct (pitchFromDegree sc 3) as [n3|] eqn:H3;
    [erewrite mapping_loop_step; [|reflexivity|reflexivity|exact H3|reflexivity]
    |by erewrite mapping_loop_raise; [|reflexivity|reflexivity|exact H3]].
  destruct (pitchFromDegree sc 4) as [n4|] eqn:H4;
    [erewrite mapping_loop_step; [|reflexivity|reflexivity|exact H4|reflexivity]
    |by erewrite mapping_loop_raise; [|reflexivity|reflexivity|exact H4]].
  destruct (pitchFromDegree sc 5) as [n5|] eqn:H5;
    [erewrite mapping_loop_step; [|reflexivity|reflexivity|exact H5|reflexivity]
    |by erewrite mapping_loop_raise; [|reflexivity|reflexivity|exact H5]].
  destruct (pitchFromDegree sc 6) as [n6|] eqn:H6;
    [erewrite mapping_loop_step; [|reflexivity|reflexivity|exact H6|reflexivity]
    |by erewrite mapping_loop_raise; [|reflexivity|reflexivity|exact H6]].
  destruct (pitchFromDegree sc 7) as [n7|] eqn:H7;
    [|by erewrite mapping_loop_raise; [|reflexivity|reflexivity|exact H7]].
  exfalso. unfold degrees in Hd. simpl in Hd.
  repeat (apply elem_of_cons in Hd as [->|Hd]; [congruence|]). by apply elem_of_nil in Hd.
Qed.

(** X6. [create_letter_note_mapping] on any scale: when a degree from 1 to
    7 raises, the mapping returned is empty; when none does, the mapping has
    the 26 letters as its keys, in order, and gives the letter at index
    [idx] of the alphabet the pitch of the degree [1 + idx mod 7]. It never
    raises and never loops beyond 26 rounds. *)
Theorem create_letter_note_mapping_total (sc : Scale) :
  (∀ d, d ∈ degrees → pitchFromDegree sc d = None →
     create_letter_note_mapping sc = Returned []) ∧
  ((∀ d, d ∈ degrees → is_Some (pitchFromDegree sc d)) →
     ∃ mapping, create_letter_note_mapping sc = Returned mapping ∧
       mapping.*1 = ascii_lowercase ∧
       ∀ idx letter, ascii_lowercase !! idx = Some letter →
         dict_get mapping letter = pitchFromDegree sc (idx mod 7 + 1)).
Proof.
  split; [apply create_letter_note_mapping_raise|].
  intros Hsome.
  assert (Hd : ∀ d, 1 ≤ d ≤ 7 → is_Some (pitchFromDegree sc d)).
  { intros d Hd. apply Hsome. unfold degrees. apply elem_of_seq. lia. }
  destruct (Hd 1) as [n1 H1]; [lia|]. destruct (Hd 2) as [n2 H2]; [lia|].
  destruct (Hd 3) as [n3 H3]; [lia|]. destruct (Hd 4) as [n4 H4]; [lia|].
  destruct (Hd 5) as [n5 H5]; [lia|]. destruct (Hd 6) as [n6 H6]; [lia|].
  destruct (Hd 7) as [n7 H7]; [lia|].
  eexists. split; [by apply create_letter_note_mapping_names|]. split; [done|].
  intros idx letter Hl.
  do 26 (destruct idx as [|idx];
    [injection Hl as <-; cbn [Nat.modulo Nat.divmod Nat.add snd Nat.sub];
     rewrite ?H1, ?H2, ?H3, ?H4, ?H5, ?H6, ?H7; vm_compute; reflexivity|]).
  done.
Qed.

Lemma create_letter_note_mapping_total_witness :
  ∃ mapping, create_letter_note_mapping c_major = Returned mapping ∧
    mapping.*1 = ascii_lowercase ∧
    ∀ idx letter, ascii_lowercase !! idx = Some letter →
      dict_get mapping letter = pitchFromDegree c_major (idx mod 7 + 1).
Proof.
  apply (proj2 (create_letter_note_mapping_total c_major)).
  intros d Hd. unfold degrees in Hd. simpl in Hd.
  repeat (apply elem_of_cons in Hd as [->|Hd]; [by eexists|]). by apply elem_of_nil in Hd.
Defined.

Lemma dict_get_elem_of {K V} `{EqDecision K} (d : dict K V) (k : K) (v : V) :
  NoDup d.*1 → dict_get d k = Some v ↔ (k, v) ∈ d.
Proof.
  induction d as [|[k' v'] d IH]; simpl; intros Hnd.
  - split; [done|by intros ?%elem_of_nil].
  - apply NoDup_cons in Hnd as [Hk' Hnd]. rewrite elem_of_cons.
    destruct (decide (k = k')) as [->|Hne].
    + split; [intros [= ->]; by left|].
      intros [[= ->]|Hin]; [done|]. destruct Hk'.
      apply list_elem_of_fmap. by exists (k', v).
    + rewrite IH by done. split; [by right|]. by intros [[= -> ->]|?].
Qed.

Lemma elem_of_letters_of_pitch (mapping : dict ascii string) (pn : string) (letter : ascii) :
  letter ∈ (filter (λ kv, kv.2 = pn) mapping).*1 ↔ (letter, pn) ∈ mapping.
Proof.
  rewrite list_elem_of_fmap. split.
  - intros ([l p] & -> & [Hp Hin]%list_elem_of_filter). simpl in *. by subst.
  - intros Hin. exists (letter, pn). split; [done|]. by apply list_elem_of_filter.
Qed.

Lemma reverse_mapping_lookup_Some (mapping : dict ascii string) (pn : string)
    (letters : list ascii) :
  reverse_mapping mapping !! pn = Some letters ↔
    letters ≠ [] ∧ letters = (filter (λ kv, kv.2 = pn) mapping).*1.
Proof.
  rewrite reverse_mapping_lookup.
  destruct (filter _ mapping) as [|kv kvs]; simpl.
  - split; [done|]. by intros [? ->].
  - split; [by intros [= <-]|]. by intros [_ ->].
Qed.

Lemma create_letter_note_mapping_keys (sc : Scale) (mapping : dict ascii string) :
  create_letter_note_mapping sc = Returned mapping →
  NoDup mapping.*1 ∧ StronglySorted letter_lt mapping.*1.
Proof.
  intros Hm. destruct (create_letter_note_mapping_returns sc) as (m & Hm' & Hkeys).
  rewrite Hm in Hm'. injection Hm' as <-.
  destruct Hkeys as [->| ->]; [split; constructor|].
  split; [apply ascii_lowercase_NoDup|]. by apply alphabetical_sorted.
Qed.

(** X7. The inverse mapping is a left inverse of the mapping of a scale: a
    letter is mapped to a pitch name if and only if it is one of the letters
    the inverse mapping holds for that name. *)
Theorem reverse_mapping_round_trip (sc : Scale) (mapping : dict ascii string)
    (letter : ascii) (pn : string) :
  create_letter_note_mapping sc = Returned mapping →
  (dict_get mapping letter = Some pn ↔
     ∃ letters, reverse_mapping mapping !! pn = Some letters ∧ letter ∈ letters).
Proof.
  intros Hm. apply create_letter_note_mapping_keys in Hm as [Hnd _].
  rewrite dict_get_elem_of by done. rewrite <- elem_of_letters_of_pitch. split.
  - intros Hin. eexists. split; [|done]. apply reverse_mapping_lookup_Some.
    split; [|done]. intros Heq. rewrite Heq in Hin. by apply elem_of_nil in Hin.
  - by intros (letters & [_ ->]%reverse_mapping_lookup_Some & Hin).
Qed.

Lemma reverse_mapping_round_trip_witness :
  dict_get (zip ascii_lowercase
      (concat (replicate 3 ["C"; "D"; "E"; "F"; "G"; "A"; "B"]) ++ ["C"; "D"; "E"; "F"; "G"]))
    "t"%char = Some "A" ↔
  ∃ letters, reverse_mapping (zip ascii_lowercase
      (concat (replicate 3 ["C"; "D"; "E"; "F"; "G"; "A"; "B"]) ++ ["C"; "D"; "E"; "F"; "G"]))
    !! "A" = Some letters ∧ "t"%char ∈ letters.
Proof.
  apply (reverse_mapping_round_trip c_major). vm_compute. reflexivity.
Defined.

Lemma StronglySorted_sublist {A} (R : relation A) (l k : list A) :
  l `sublist_of` k → StronglySorted R k → StronglySorted R l.
Proof.
  induction 1 as [|x l k Hsub IH|x l k Hsub IH]; intros Hk; [done|..].
  - apply StronglySorted_inv in Hk as [Hk Hx]. constructor; [by apply IH|].
    apply Forall_forall. intros y Hy. rewrite Forall_forall in Hx. apply Hx.
    by eapply elem_of_sublist.
  - apply StronglySorted_inv in Hk as [Hk _]. by apply IH.
Qed.

Lemma sorted_alphabetical (letters : list ascii) :
  StronglySorted letter_lt letters → alphabetical letters = true.
Proof.
  induction 1 as [|a l Hl IH Ha]; [done|]. destruct l as [|b l]; [done|].
  change (alphabetical (a :: b :: l))
    with ((nat_of_ascii a <? nat_of_ascii b)%nat && alphabetical (b :: l)).
  rewrite IH. apply Forall_inv in Ha.
  unfold letter_lt in Ha. apply Nat.ltb_lt in Ha. by rewrite Ha.
Qed.

Lemma sum_group_sizes_insert (ntl : gmap string (list ascii)) (pn : string)
    (letters : list ascii) :
  sum_list (group_sizes (<[pn := letters]> ntl)) + length (default [] (ntl !! pn))
    = sum_list (group_sizes ntl) + length letters.
Proof.
  unfold group_sizes. destruct (ntl !! pn) as [old|] eqn:Hold; simpl.
  - rewrite <- insert_delete_eq.
    rewrite (sum_list_perm _ _ (fmap_Permutation _ _ _
               (map_to_list_insert (delete pn ntl) pn letters (lookup_delete_eq _ _)))).
    rewrite <- (sum_list_perm _ _ (fmap_Permutation (λ kv, length kv.2) _ _
               (map_to_list_delete ntl pn old Hold))).
    simpl. lia.
  - rewrite (sum_list_perm _ _ (fmap_Permutation _ _ _
               (map_to_list_insert ntl pn letters Hold))).
    simpl. unfold fmap. lia.
Qed.

Lemma sum_group_sizes_reverse_mapping (mapping : dict ascii string) :
  sum_list (group_sizes (reverse_mapping mapping)) = length mapping.
Proof.
  unfold reverse_mapping.
  induction mapping as [|[letter pn] mapping IH] using rev_ind; [done|].
  rewrite foldl_app, length_app. cbn [foldl length]. rewrite <- IH.
  set (ntl := foldl reverse_step ∅ mapping). unfold reverse_step.
  destruct (ntl !! pn) as [old|] eqn:Hold.
  - pose proof (sum_group_sizes_insert ntl pn (old ++ [letter])) as Hs.
    rewrite Hold in *. simpl in Hs. rewrite length_app in Hs. simpl in *. lia.
  - rewrite lookup_insert_eq, insert_insert_eq. simpl.
    pose proof (sum_group_sizes_insert ntl pn [letter]) as Hs.
    rewrite Hold in Hs. simpl in Hs. lia.
Qed.

(** X8. The letter groups of the inverse mapping of a scale: each group is
    not empty and in alphabetical order, and together the groups hold as
    many letters as the mapping has keys (26, or none when a degree raised),
    whether or not the pitch names of the degrees are distinct. *)
Theorem reverse_mapping_groups_ordered (sc : Scale) (mapping : dict ascii string) :
  create_letter_note_mapping sc = Returned mapping →
  (∀ pn letters, reverse_mapping mapping !! pn = Some letters →
     letters ≠ [] ∧ alphabetical letters = true) ∧
  sum_list (group_sizes (reverse_mapping mapping)) = length mapping ∧
  (length mapping = 26 ∨ length mapping = 0).
Proof.
  intros Hm. split; [|split; [apply sum_group_sizes_reverse_mapping|]].
  - intros pn letters [Hne ->]%reverse_mapping_lookup_Some. split; [done|].
    apply create_letter_note_mapping_keys in Hm as [_ Hsorted].
    apply sorted_alphabetical. eapply StronglySorted_sublist; [|done].
    apply fmap_sublist, sublist_filter.
  - destruct (create_letter_note_mapping_returns sc) as (m & Hm' & Hkeys).
    rewrite Hm in Hm'. injection Hm' as <-.
    destruct Hkeys as [->|Hkeys]; [by right|]. left.
    by rewrite <- (length_fmap fst), Hkeys.
Qed.

Lemma reverse_mapping_groups_ordered_witness :
  sum_list (group_sizes (reverse_mapping (zip ascii_lowercase
      (concat (replicate 3 ["C"; "D"; "E"; "C"; "G"; "A"; "B"]) ++ ["C"; "D"; "E"; "C"; "G"]))))
  = 26.
Proof.
  apply (reverse_mapping_groups_ordered
           (scale_of_names ["C"; "D"; "E"; "C"; "G"; "A"; "B"])).
  vm_compute. reflexivity.
Defined.

(** ** The melody expander *)

Lemma letters_of_note_cases (enh : string → option string) (ntl : gmap string (list ascii))
    (n : string) :
  letters_of_note enh ntl n = [] ∨
  ∃ pn, ntl !! pn = Some (letters_of_note enh ntl n).
Proof.
  unfold letters_of_note. destruct (ntl !! n) as [[|l ls]|] eqn:Hn; simpl.
  - destruct (enh n) as [name|]; [|by left].
    destruct (ntl !! name) as [ls|] eqn:Hname; simpl; [right; eauto|by left].
  - right. eauto.
  - destruct (enh n) as [name|]; [|by left].
    destruct (ntl !! name) as [ls|] eqn:Hname; simpl; [right; eauto|by left].
Qed.

Lemma lex_lt_irrefl (c : list ascii) : ¬ lex_lt c c.
Proof.
  induction c as [|a c IH]; inversion 1; subst; [|done].
  unfold letter_lt in *. lia.
Qed.

Lemma StronglySorted_lex_NoDup (cs : list (list ascii)) :
  StronglySorted lex_lt cs → NoDup cs.
Proof.
  induction 1 as [|c cs Hcs IH Hc]; constructor; [|done].
  intros Hin. rewrite Forall_forall in Hc. by apply (lex_lt_irrefl c), Hc.
Qed.

Lemma decode_melody_sorted (enh : string → option string) (ntl : gmap string (list ascii))
    (melody : list string) :
  (∀ pn letters, ntl !! pn = Some letters → StronglySorted letter_lt letters) →
  StronglySorted lex_lt (decode_melody enh ntl melody).
Proof.
  intros Hgroups. unfold decode_melody.
  destruct (decide ([] ∈ letter_pools enh ntl melody)) as [Hin|Hnin].
  - rewrite collect_letters_none by done. constructor.
  - rewrite collect_letters_some by done. simpl. apply product_sorted.
    apply Forall_forall. intros pool Hpool. unfold letter_pools in Hpool.
    apply list_elem_of_fmap in Hpool as (n & -> & _).
    destruct (letters_of_note_cases enh ntl n) as [->|[pn Hpn]]; [constructor|].
    by eapply Hgroups.
Qed.

(** X9. For the inverse mapping of any scale, the candidates of a melody
    come out in strictly increasing lexicographic order; no candidate is
    produced twice. *)
Theorem decode_melody_of_scale_sorted (enh : string → option string) (sc : Scale)
    (mapping : dict ascii string) (melody : list string) :
  create_letter_note_mapping sc = Returned mapping →
  StronglySorted lex_lt (decode_melody enh (reverse_mapping mapping) melody) ∧
  NoDup (decode_melody enh (reverse_mapping mapping) melody).
Proof.
  intros Hm.
  assert (Hsorted : StronglySorted lex_lt (decode_melody enh (reverse_mapping mapping) melody)).
  { apply decode_melody_sorted.
    intros pn letters [_ ->]%reverse_mapping_lookup_Some.
    apply create_letter_note_mapping_keys in Hm as [_ Hkeys].
    eapply StronglySorted_sublist; [|done]. apply fmap_sublist, sublist_filter. }
  split; [done|by apply StronglySorted_lex_NoDup].
Qed.

Lemma decode_melody_of_scale_sorted_witness :
  NoDup (decode_melody enharmonic_name
           (reverse_mapping (zip ascii_lowercase
              (concat (replicate 3 ["C"; "D"; "E"; "F"; "G"; "A"; "B"])
               ++ ["C"; "D"; "E"; "F"; "G"])))
           ["C"; "E#"; "C"]).
Proof.
  apply (decode_melody_of_scale_sorted enharmonic_name c_major). vm_compute. reflexivity.
Defined.

Lemma scale_group_sizes (sc : Scale) (mapping : dict ascii string) :
  Forall (λ d, is_Some (pitchFromDegree sc d)) degrees →
  NoDup (pitchFromDegree sc <$> degrees) →
  create_letter_note_mapping sc = Returned mapping →
  ∀ pn letters, reverse_mapping mapping !! pn = Some letters → 3 ≤ length letters ≤ 4.
Proof.
  intros Hsome Hnd Hm. unfold degrees in *. cbn [seq fmap list_fmap] in *.
  apply Forall_cons in Hsome as [[n1 H1] Hsome]. apply Forall_cons in Hsome as [[n2 H2] Hsome].
  apply Forall_cons in Hsome as [[n3 H3] Hsome]. apply Forall_cons in Hsome as [[n4 H4] Hsome].
  apply Forall_cons in Hsome as [[n5 H5] Hsome]. apply Forall_cons in Hsome as [[n6 H6] Hsome].
  apply Forall_cons in Hsome as [[n7 H7] _].
  rewrite H1, H2, H3, H4, H5, H6, H7 in Hnd.
  change (NoDup (Some <$> [n1; n2; n3; n4; n5; n6; n7])) in Hnd.
  apply (NoDup_fmap_1 Some) in Hnd.
  pose proof (create_letter_note_mapping_names sc n1 n2 n3 n4 n5 n6 n7 H1 H2 H3 H4 H5 H6 H7)
    as Hnames.
  rewrite Hm in Hnames.
  assert (Heq : mapping = zip ascii_lowercase
            [n1; n2; n3; n4; n5; n6; n7; n1; n2; n3; n4; n5; n6; n7;
             n1; n2; n3; n4; n5; n6; n7; n1; n2; n3; n4; n5]) by congruence.
  rewrite Heq.
  rewrite reverse_mapping_groups by done.
  intros pn letters Hl. apply elem_of_list_to_map_2 in Hl.
  repeat (apply elem_of_cons in Hl as [[= -> ->]|Hl]; [simpl; lia|]).
  by apply elem_of_nil in Hl.
Qed.

Lemma product_length_bounds {A} (pools : list (list A)) (lo hi : nat) :
  Forall (λ pool, lo ≤ length pool ≤ hi) pools →
  lo ^ length pools ≤ length (product pools) ≤ hi ^ length pools.
Proof.
  rewrite length_product. induction 1 as [|pool pools [Hlo Hhi] _ [IHlo IHhi]]; simpl; [lia|].
  split.
  - by apply Nat.mul_le_mono.
  - by apply Nat.mul_le_mono.
Qed.

(** X10. With seven pairwise distinct pitch names every note has at most 4
    letters, so a melody of [N] notes has at most [4 ^ N] candidates, and at
    least [3 ^ N] when it has any. *)
Theorem decode_melody_candidate_bound (enh : string → option string) (sc : Scale)
    (mapping : dict ascii string) (melody : list string) :
  Forall (λ d, is_Some (pitchFromDegree sc d)) degrees →
  NoDup (pitchFromDegree sc <$> degrees) →
  create_letter_note_mapping sc = Returned mapping →
  length (decode_melody enh (reverse_mapping mapping) melody) ≤ 4 ^ length melody ∧
  (decode_melody enh (reverse_mapping mapping) melody ≠ [] →
   3 ^ length melody ≤ length (decode_melody enh (reverse_mapping mapping) melody)).
Proof.
  intros Hsome Hnd Hm. pose proof (scale_group_sizes sc mapping Hsome Hnd Hm) as Hsizes.
  unfold decode_melody.
  destruct (decide ([] ∈ letter_pools enh (reverse_mapping mapping) melody)) as [Hin|Hnin].
  - rewrite collect_letters_none by done. simpl. split; [lia|done].
  - rewrite collect_letters_some by done. simpl.
    destruct (product_length_bounds (letter_pools enh (reverse_mapping mapping) melody) 3 4)
      as [Hlo Hhi].
    + apply Forall_forall. intros pool Hpool.
      assert (Hne : pool ≠ []) by (by intros ->).
      unfold letter_pools in Hpool. apply list_elem_of_fmap in Hpool as (n & -> & _).
      destruct (letters_of_note_cases enh (reverse_mapping mapping) n) as [?|[pn Hpn]]; [done|].
      by eapply Hsizes.
    + unfold letter_pools in Hlo, Hhi. rewrite length_fmap in Hlo, Hhi. by split.
Qed.

Lemma decode_melody_candidate_bound_witness :
  length (decode_melody enharmonic_name c_major_letters ["C"; "A"; "B"])
    ≤ 4 ^ length ["C"; "A"; "B"] ∧
  (decode_melody enharmonic_name c_major_letters ["C"; "A"; "B"] ≠ [] →
   3 ^ length ["C"; "A"; "B"]
     ≤ length (decode_melody enharmonic_name c_major_letters ["C"; "A"; "B"])).
Proof.
  assert (Hm : create_letter_note_mapping c_major
               = Returned (zip ascii_lowercase
                   (concat (replicate 3 ["C"; "D"; "E"; "F"; "G"; "A"; "B"])
                    ++ ["C"; "D"; "E"; "F"; "G"]))) by (vm_compute; reflexivity).
  assert (Hl : c_major_letters = reverse_mapping (zip ascii_lowercase
                   (concat (replicate 3 ["C"; "D"; "E"; "F"; "G"; "A"; "B"])
                    ++ ["C"; "D"; "E"; "F"; "G"]))) by (unfold c_major_letters; by rewrite Hm).
  rewrite Hl.
  apply (decode_melody_candidate_bound enharmonic_name c_major _ ["C"; "A"; "B"]).
  - apply (bool_decide_unpack _). vm_compute. exact I.
  - apply (bool_decide_unpack _). vm_compute. exact I.
  - exact Hm.
Defined.

(** ** The lexical segmenter *)

Lemma foldl_ext_in {A B} (f g : A → B → A) (l : list B) (a : A) :
  (∀ a b, b ∈ l → f a b = g a b) → foldl f a l = foldl g a l.
Proof.
  revert a. induction l as [|b l IH]; intros a Hfg; simpl; [done|].
  rewrite Hfg by left. apply IH. intros a' b' Hb'. apply Hfg. by right.
Qed.

Lemma slice_length {A} (j i : nat) (xs : list A) :
  j ≤ i ≤ length xs → length (slice j i xs) = i - j.
Proof. intros Hji. unfold slice. rewrite length_take, length_drop. lia. Qed.

Lemma join_chars_length (cs : list ascii) : String.length (join_chars cs) = length cs.
Proof. by rewrite <- chars_length, chars_join_chars. Qed.

(** Inside the window only words of length [1 .. max_word_length] are
    looked up, so the other members of the word set play no part. *)
Lemma segment_into_words_window_words (s : list ascii) (W W2 P : gset string) (mwl : Z) :
  (∀ w, (1 ≤ String.length w) → (Z.of_nat (String.length w) ≤ mwl)%Z → w ∈ W ↔ w ∈ W2) →
  segment_into_words s W P mwl = segment_into_words s W2 P mwl.
Proof.
  intros Hsame. unfold segment_into_words, run_table. cbn zeta. do 2 f_equal.
  apply foldl_ext_in. intros dp i Hi%elem_of_seq. unfold outer_step.
  apply foldl_ext_in. intros dp' j [Hlo Hj]%elem_of_window.
  unfold inner_step. destruct (dp' !! j) as [[dpj|]|]; [|done|done]. cbn zeta.
  assert (Hlen : String.length (join_chars (slice j i s)) = i - j).
  { rewrite join_chars_length. apply slice_length. lia. }
  assert (Hw : join_chars (slice j i s) ∈ W ↔ join_chars (slice j i s) ∈ W2)
    by (apply Hsame; lia).
  by rewrite (bool_decide_ext _ _ Hw).
Qed.

Lemma join_words_length_ge (ws : list string) :
  Forall (λ w, 1 ≤ String.length w) ws → length ws ≤ String.length (join_words ws).
Proof.
  induction 1 as [|w ws Hw _ IH]; simpl; [lia|].
  rewrite <- chars_length, chars_app, length_app, !chars_length. lia.
Qed.

Lemma segment_into_words_words (s : list ascii) (W P : gset string) (mwl : Z)
    (p : list string) :
  segment_into_words s W P mwl = Some p →
  Forall (λ w, 1 ≤ String.length w ∧ (Z.of_nat (String.length w) ≤ mwl)%Z) p ∧
  join_words p = join_chars s ∧ length p ≤ length s.
Proof.
  set (W2 := filter (λ w, 1 ≤ String.length w ∧ (Z.of_nat (String.length w) ≤ mwl)%Z) W).
  assert (Heq : segment_into_words s W P mwl = segment_into_words s W2 P mwl).
  { apply segment_into_words_window_words. intros w H1 H2. unfold W2.
    rewrite elem_of_filter. tauto. }
  intros Hp. rewrite Heq in Hp. apply segment_into_words_sound in Hp as [Hall Hcat].
  assert (Hlen : Forall (λ w, 1 ≤ String.length w ∧ (Z.of_nat (String.length w) ≤ mwl)%Z) p).
  { eapply Forall_impl; [done|]. intros w Hw. unfold W2 in Hw.
    by apply elem_of_filter in Hw as [? _]. }
  split; [done|]. split; [done|].
  rewrite <- (join_chars_length s), <- Hcat. apply join_words_length_ge.
  eapply Forall_impl; [done|]. by intros w [? _].
Qed.

(** X11. The words of a phrase returned by the segmenter are not empty and
    no longer than [max_word_length], so the phrase has at most as many
    words as the string has letters; with a [max_word_length] of zero or
    less a non-empty string is never segmented. *)
Theorem segment_into_words_word_lengths (s : list ascii) (W P : gset string) (mwl : Z) :
  (∀ p, segment_into_words s W P mwl = Some p →
     Forall (λ w, 1 ≤ String.length w ∧ (Z.of_nat (String.length w) ≤ mwl)%Z) p ∧
     length p ≤ length s) ∧
  ((mwl ≤ 0)%Z → s ≠ [] → segment_into_words s W P mwl = None).
Proof.
  split.
  - intros p Hp. by destruct (segment_into_words_words s W P mwl p Hp) as (? & _ & ?).
  - intros Hmwl Hs. destruct (segment_into_words s W P mwl) as [p|] eqn:Hp; [|done].
    destruct (segment_into_words_words s W P mwl p Hp) as (Hall & Hcat & _).
    destruct p as [|w p].
    + apply (f_equal chars) in Hcat. rewrite chars_join_chars in Hcat. by destruct s.
    + apply Forall_cons in Hall as [[H1 H2] _]. lia.
Qed.

(** X12. For any [max_word_length], the segmenter returns [None] exactly
    when the string has no decomposition into members of the word set that
    are no longer than [max_word_length]; otherwise it returns such a
    decomposition with the fewest words among them. *)
Theorem segment_into_words_minimal_in_window (s : list ascii) (W P : gset string) (mwl : Z) :
  (segment_into_words s W P mwl = None ↔
     ¬ ∃ ws, is_segmentation W ws s ∧
             Forall (λ w, (Z.of_nat (String.length w) ≤ mwl)%Z) ws) ∧
  (∀ p, segment_into_words s W P mwl = Some p →
     is_segmentation W p s ∧
     Forall (λ w, (Z.of_nat (String.length w) ≤ mwl)%Z) p ∧
     ∀ ws, is_segmentation W ws s →
           Forall (λ w, (Z.of_nat (String.length w) ≤ mwl)%Z) ws → length p ≤ length ws).
Proof.
  set (W2 := filter (λ w, (Z.of_nat (String.length w) ≤ mwl)%Z) W).
  assert (Heq : segment_into_words s W P mwl = segment_into_words s W2 P mwl).
  { apply segment_into_words_window_words. intros w H1 H2. unfold W2.
    rewrite elem_of_filter. tauto. }
  assert (Hcov : covers W2 mwl).
  { intros w Hw. unfold W2 in Hw. by apply elem_of_filter in Hw as [? _]. }
  assert (Hseg : ∀ ws, is_segmentation W2 ws s ↔
            is_segmentation W ws s ∧ Forall (λ w, (Z.of_nat (String.length w) ≤ mwl)%Z) ws).
  { intros ws. unfold is_segmentation, W2. rewrite !Forall_forall.
    setoid_rewrite elem_of_filter. split.
    - intros [Hall Hcat]. split; [split; [|done]|]; intros w Hw; by destruct (Hall w Hw).
    - intros [[Hall Hcat] Hb]. split; [|done]. intros w Hw. split; [by apply Hb|by apply Hall]. }
  rewrite Heq. split.
  - split.
    + intros Hnone (ws & Hws). apply Hseg in Hws.
      destruct (segment_into_words_optimal s W2 P mwl ws Hcov Hws) as (p & Hp & _).
      congruence.
    + intros Hno. destruct (segment_into_words s W2 P mwl) as [p|] eqn:Hp; [|done].
      destruct Hno. exists p. apply Hseg. by eapply segment_into_words_sound.
  - intros p Hp. pose proof (segment_into_words_sound s W2 P mwl p Hp) as Hsound.
    apply Hseg in Hsound as [Hsound Hbound]. split; [done|]. split; [done|].
    intros ws Hws Hb.
    destruct (segment_into_words_optimal s W2 P mwl ws Hcov) as (p' & Hp' & Hle).
    { apply Hseg. by split. }
    congruence.
Qed.

(** ** The search orchestrator *)

Lemma validate_notes_inr (enh : string → option string) (notes notes' : list string) :
  validate_notes enh notes = inr notes' →
  Forall2 (λ n n', n' ∈ valid_note_names ∧
                   (n' = n ∨ ((n ∉ valid_note_names) ∧ enh n = Some n'))) notes notes'.
Proof.
  revert notes'. induction notes as [|n notes IH]; intros notes'; simpl.
  - intros [= <-]. constructor.
  - case_bool_decide as Hn.
    + destruct (validate_notes enh notes) as [e|rest]; [done|]. intros [= <-].
      constructor; [by split; [|left]|by apply IH].
    + destruct (enh n) as [name|] eqn:Hname; [|done].
      case_bool_decide as Hname'; [|done].
      destruct (validate_notes enh notes) as [e|rest]; [done|]. intros [= <-].
      constructor; [by split; [|right]|by apply IH].
Qed.

Lemma validate_notes_valid (enh : string → option string) (notes : list string) :
  Forall (λ n, n ∈ valid_note_names) notes → validate_notes enh notes = inr notes.
Proof.
  induction 1 as [|n notes Hn _ IH]; simpl; [done|].
  by rewrite bool_decide_eq_true_2, IH.
Qed.

(** X13. When the validation of the notes succeeds, it returns as many
    notes as it was given, all of them canonical: each is the note itself,
    or the enharmonic spelling of a note that is not canonical. Validating
    the result again changes nothing. *)
Theorem validate_notes_canonical (enh : string → option string) (notes notes' : list string) :
  validate_notes enh notes = inr notes' →
  length notes' = length notes ∧
  Forall (λ n, n ∈ valid_note_names) notes' ∧
  Forall2 (λ n n', n' = n ∨ ((n ∉ valid_note_names) ∧ enh n = Some n')) notes notes' ∧
  validate_notes enh notes' = inr notes'.
Proof.
  intros Hv%validate_notes_inr.
  assert (Hvalid : Forall (λ n, n ∈ valid_note_names) notes').
  { induction Hv as [|n n' ns ns' [? _] _ IH]; by constructor. }
  split; [symmetry; by eapply Forall2_length|]. split; [done|].
  split; [|by apply validate_notes_valid].
  eapply Forall2_impl; [done|]. by intros n n' [_ ?].
Qed.

Lemma validate_notes_canonical_witness :
  length ["C"; "C#"; "F"] = length ["C"; "D-"; "E#"] ∧
  Forall (λ n, n ∈ valid_note_names) ["C"; "C#"; "F"] ∧
  Forall2 (λ n n', n' = n ∨ ((n ∉ valid_note_names) ∧ enharmonic_name n = Some n'))
    ["C"; "D-"; "E#"] ["C"; "C#"; "F"] ∧
  validate_notes enharmonic_name ["C"; "C#"; "F"] = inr ["C"; "C#"; "F"].
Proof.
  apply (validate_notes_canonical enharmonic_name ["C"; "D-"; "E#"] ["C"; "C#"; "F"]).
  vm_compute. reflexivity.
Defined.

Lemma validate_notes_inl (enh : string → option string) (notes : list string) (e : event) :
  validate_notes enh notes = inl e →
  is_error e = true ∧ Exists (λ n, ¬ token_ok enh n) notes.
Proof.
  induction notes as [|n notes IH]; simpl; [done|].
  case_bool_decide as Hn.
  - destruct (validate_notes enh notes) as [e'|rest]; [|done]. intros [= ->].
    destruct IH as [? ?]; [done|]. split; [done|by right].
  - destruct (enh n) as [name|] eqn:Hname.
    + case_bool_decide as Hname'.
      * destruct (validate_notes enh notes) as [e'|rest]; [|done]. intros [= ->].
        destruct IH as [? ?]; [done|]. split; [done|by right].
      * intros [= <-]. split; [done|]. left. intros [?|(name' & ? & ?)]; [done|].
        congruence.
    + intros [= <-]. split; [done|]. left. intros [?|(name' & ? & ?)]; [done|]. congruence.
Qed.

Lemma validate_notes_ok (enh : string → option string) (notes : list string) :
  Forall (token_ok enh) notes → ∃ notes', validate_notes enh notes = inr notes'.
Proof.
  induction 1 as [|n notes Hn _ [notes' IH]]; simpl; [by eexists|].
  rewrite IH. case_bool_decide as Hv; [by eexists|].
  destruct Hn as [?|(name & -> & Hname)]; [done|].
  rewrite bool_decide_eq_true_2 by done. by eexists.
Qed.






(** ** The reports *)

Lemma elem_of_dict_set_keys {K V} `{EqDecision K} (d : dict K V) (k x : K) (v : V) :
  x ∈ (dict_set d k v).*1 ↔ x = k ∨ x ∈ d.*1.
Proof.
  induction d as [|[k' v'] d IH]; simpl.
  - rewrite list_elem_of_singleton, elem_of_nil. tauto.
  - destruct (decide (k = k')) as [->|Hne]; simpl; rewrite !elem_of_cons; [tauto|].
    unfold fmap in IH. rewrite IH. tauto.
Qed.

Lemma dict_set_NoDup {K V} `{EqDecision K} (d : dict K V) (k : K) (v : V) :
  NoDup d.*1 → NoDup (dict_set d k v).*1.
Proof.
  induction d as [|[k' v'] d IH]; simpl; intros Hnd.
  - apply NoDup_singleton.
  - apply NoDup_cons in Hnd as [Hk' Hnd].
    destruct (decide (k = k')) as [->|Hne]; simpl; apply NoDup_cons.
    + done.
    + split; [|by apply IH]. intros [?|?]%elem_of_dict_set_keys; done.
Qed.

Lemma dict_get_None {K V} `{EqDecision K} (d : dict K V) (k : K) :
  dict_get d k = None ↔ k ∉ d.*1.
Proof.
  induction d as [|[k' v'] d IH]; simpl.
  - split; [intros _ ?%elem_of_nil; done|done].
  - rewrite not_elem_of_cons. destruct (decide (k = k')); [split; [done|tauto]|].
    unfold fmap in IH. rewrite IH. tauto.
Qed.

Lemma elem_of_dict_values {K V} `{EqDecision K} (d : dict K V) (v : V) :
  v ∈ dict_values d → ∃ k, (k, v) ∈ d.
Proof.
  unfold dict_values. intros ([k v'] & -> & Hin)%list_elem_of_fmap. by exists k.
Qed.

(** What the loop that removes duplicates keeps, for any key: one record
    for each key met, taken from the records met, with the fewest words
    among the records of that key. *)
Lemma unique_by_invariant {K} `{EqDecision K} (key : ResultRecord → K)
    (rs seen : list ResultRecord) (d : dict K ResultRecord) :
  NoDup d.*1 →
  (∀ k v, (k, v) ∈ d → key v = k ∧ v ∈ seen ∧
          ∀ r, r ∈ seen → key r = k → num_words v ≤ num_words r) →
  (∀ r, r ∈ seen → key r ∈ d.*1) →
  let d' := foldl (unique_by key) d rs in
  NoDup d'.*1 ∧
  (∀ k v, (k, v) ∈ d' → key v = k ∧ v ∈ seen ++ rs ∧
          ∀ r, r ∈ seen ++ rs → key r = k → num_words v ≤ num_words r) ∧
  (∀ r, r ∈ seen ++ rs → key r ∈ d'.*1).
Proof.
  revert seen d. induction rs as [|r rs IH]; intros seen d Hnd Hinv Hkeys; cbn zeta.
  { simpl. by rewrite app_nil_r. }
  cbn [foldl]. replace (seen ++ r :: rs) with ((seen ++ [r]) ++ rs) by (by rewrite <- app_assoc).
  apply IH; clear IH.
  - unfold unique_by. cbn zeta. destruct (dict_get d (key r)) as [kept|].
    + destruct (_ <? _)%nat; [by apply dict_set_NoDup|done].
    + by apply dict_set_NoDup.
  - intros k v Hin. unfold unique_by in Hin. cbn zeta in Hin.
    assert (Hset : (k, v) ∈ dict_set d (key r) r →
              (∀ kept, dict_get d (key r) = Some kept → num_words r < num_words kept) →
              key v = k ∧ v ∈ seen ++ [r] ∧
              ∀ r0, r0 ∈ seen ++ [r] → key r0 = k → num_words v ≤ num_words r0).
    { intros Hin' Hless.
      apply dict_get_elem_of in Hin'; [|by apply dict_set_NoDup].
      rewrite dict_get_set in Hin'. destruct (decide (k = key r)) as [->|Hne].
      - injection Hin' as <-. split; [done|]. split; [apply elem_of_app; right; left|].
        intros r0 [Hr0|Hr0%list_elem_of_singleton]%elem_of_app Hk; [|by subst].
        destruct (dict_get d (key r)) as [kept|] eqn:Hget.
        + specialize (Hless kept eq_refl).
          apply dict_get_elem_of in Hget; [|done].
          destruct (Hinv _ _ Hget) as (_ & _ & Hmin). specialize (Hmin r0 Hr0 Hk). lia.
        + apply dict_get_None in Hget. destruct Hget. rewrite <- Hk. by apply Hkeys.
      - apply dict_get_elem_of in Hin'; [|done].
        destruct (Hinv _ _ Hin') as (Hk & Hv & Hmin). split; [done|].
        split; [apply elem_of_app; by left|].
        intros r0 [Hr0|Hr0%list_elem_of_singleton]%elem_of_app Hk0; [by apply Hmin|].
        subst. done. }
    destruct (dict_get d (key r)) as [kept|] eqn:Hget.
    + destruct (Nat.ltb_spec (num_words r) (num_words kept)) as [Hlt|Hge].
      * apply Hset; [done|]. by intros ? [= <-].
      * destruct (Hinv _ _ Hin) as (Hk & Hv & Hmin). split; [done|].
        split; [apply elem_of_app; by left|].
        intros r0 [Hr0|Hr0%list_elem_of_singleton]%elem_of_app Hk0; [by apply Hmin|].
        subst r0. apply dict_get_elem_of in Hin; [|done].
        rewrite <- Hk0, Hget in Hin. injection Hin as <-. done.
    + apply Hset; [done|]. by intros ? [=].
  - intros r0 [Hr0|Hr0%list_elem_of_singleton]%elem_of_app.
    + specialize (Hkeys r0 Hr0). unfold unique_by. cbn zeta.
      destruct (dict_get d (key r)) as [kept|].
      * destruct (_ <? _)%nat; [|done]. apply elem_of_dict_set_keys. by right.
      * apply elem_of_dict_set_keys. by right.
    + subst r0. unfold unique_by. cbn zeta.
      destruct (dict_get d (key r)) as [kept|] eqn:Hget.
      * destruct (_ <? _)%nat; [apply elem_of_dict_set_keys; by left|].
        destruct (decide (key r ∈ d.*1)) as [?|Hnot]; [done|].
        apply dict_get_None in Hnot. congruence.
      * apply elem_of_dict_set_keys. by left.
Qed.

Lemma unique_by_spec {K} `{EqDecision K} (key : ResultRecord → K)
    (flat_results : list ResultRecord) :
  let d := foldl (unique_by key) [] flat_results in
  NoDup d.*1 ∧
  (∀ k v, (k, v) ∈ d → key v = k ∧ v ∈ flat_results ∧
          ∀ r, r ∈ flat_results → key r = k → num_words v ≤ num_words r) ∧
  (∀ r, r ∈ flat_results → key r ∈ d.*1).
Proof.
  apply (unique_by_invariant key flat_results [] []).
  - constructor.
  - by intros k v ?%elem_of_nil.
  - by intros r ?%elem_of_nil.
Qed.

Lemma unique_values_keys {K} `{EqDecision K} (key : ResultRecord → K)
    (d : dict K ResultRecord) :
  (∀ k v, (k, v) ∈ d → key v = k) → key <$> dict_values d = d.*1.
Proof.
  unfold dict_values. induction d as [|[k v] d IH]; intros Hkey; [done|].
  simpl. rewrite (Hkey k v) by left. f_equal. apply IH. intros k' v' Hin. apply Hkey. by right.
Qed.

Lemma insert_by_phrase_perm (r : ResultRecord) (rs : list ResultRecord) :
  insert_by_phrase r rs ≡ₚ r :: rs.
Proof.
  induction rs as [|r' rs IH]; simpl; [done|].
  destruct (String.leb _ _); [done|]. by rewrite IH, Permutation_swap.
Qed.

Lemma sorted_by_phrase_perm (rs : list ResultRecord) : sorted_by_phrase rs ≡ₚ rs.
Proof.
  unfold sorted_by_phrase. induction rs as [|r rs IH]; simpl; [done|].
  by rewrite insert_by_phrase_perm, IH.
Qed.

Lemma best_phrases_spec (flat_results : list ResultRecord) :
  Sorted (λ a b, String.leb (phrase a) (phrase b) = true) (best_phrases flat_results) ∧
  NoDup (phrase <$> best_phrases flat_results) ∧
  (∀ r, r ∈ best_phrases flat_results →
     r ∈ flat_results ∧
     ∀ r', r' ∈ flat_results → phrase r' = phrase r → num_words r ≤ num_words r') ∧
  (∀ r, r ∈ flat_results → phrase r ∈ phrase <$> best_phrases flat_results).
Proof.
  destruct (unique_by_spec phrase flat_results) as (Hnd & Hinv & Hkeys). cbn zeta in *.
  change (unique_by phrase) with unique_step in *.
  set (d := foldl unique_step [] flat_results) in *.
  assert (Hphr : phrase <$> dict_values d = d.*1).
  { apply unique_values_keys. intros k v Hin. by destruct (Hinv k v Hin). }
  unfold best_phrases. fold d.
  split; [apply sorted_by_phrase_sorted|]. split; [|split].
  - by rewrite sorted_by_phrase_perm, Hphr.
  - intros r Hr. rewrite sorted_by_phrase_perm in Hr.
    apply elem_of_dict_values in Hr as [k Hin]. destruct (Hinv k r Hin) as (<- & ? & Hmin).
    split; [done|]. intros r' Hr' Heq. by apply Hmin.
  - intros r Hr. rewrite sorted_by_phrase_perm, Hphr. by apply Hkeys.
Qed.

(** X15. What [decoder.py] prints: the phrases come in the order of their
    code points and no phrase comes twice; every record printed is one of
    the results, with the fewest words among the results of its phrase; and
    the phrase of every result is printed. *)
Theorem best_phrases_sorted_unique (flat_results : list ResultRecord) :
  Sorted (λ a b, String.leb (phrase a) (phrase b) = true) (best_phrases flat_results) ∧
  NoDup (phrase <$> best_phrases flat_results) ∧
  (∀ r, r ∈ best_phrases flat_results →
     r ∈ flat_results ∧
     ∀ r', r' ∈ flat_results → phrase r' = phrase r → num_words r ≤ num_words r') ∧
  (∀ r, r ∈ flat_results → phrase r ∈ phrase <$> best_phrases flat_results).
Proof. apply best_phrases_spec. Qed.

Lemma string_leb_trans (s1 s2 s3 : string) :
  String.leb s1 s2 = true → String.leb s2 s3 = true → String.leb s1 s3 = true.
Proof.
  revert s2 s3. induction s1 as [|a s1 IH]; intros [|b s2] [|c s3]; try done.
  specialize (IH s2 s3). unfold String.leb in *. simpl.
  unfold Ascii.compare.
  destruct (N.compare_spec (N_of_ascii a) (N_of_ascii b)) as [Hab|Hab|Hab];
    destruct (N.compare_spec (N_of_ascii b) (N_of_ascii c)) as [Hbc|Hbc|Hbc]; try done.
  - rewrite Hab, Hbc, N.compare_refl. apply IH.
  - intros _ _. rewrite Hab. by rewrite (proj2 (N.compare_lt_iff _ _) Hbc).
  - intros _ _. rewrite <- Hbc. by rewrite (proj2 (N.compare_lt_iff _ _) Hab).
  - intros _ _. by rewrite (proj2 (N.compare_lt_iff _ _) (N.lt_trans _ _ _ Hab Hbc)).
Qed.

(** X16. The phrases printed by [decoder.py], and their order, do not
    depend on the order in which the results of the work items arrive. *)
Theorem best_phrases_order_independent (flat_results flat_results' : list ResultRecord) :
  flat_results ≡ₚ flat_results' →
  phrase <$> best_phrases flat_results = phrase <$> best_phrases flat_results'.
Proof.
  intros Hperm.
  destruct (best_phrases_spec flat_results) as (Hs & Hnd & Hfrom & Hall).
  destruct (best_phrases_spec flat_results') as (Hs' & Hnd' & Hfrom' & Hall').
  assert (Htrans : Transitive (λ a b : string, String.leb a b = true)).
  { intros a b c. apply string_leb_trans. }
  assert (Hanti : AntiSymm eq (λ a b : string, String.leb a b = true)).
  { intros a b. apply String.leb_antisym. }
  apply (Sorted_unique (λ a b : string, String.leb a b = true)).
  - by apply (Sorted_fmap phrase (λ a b, String.leb (phrase a) (phrase b) = true)).
  - by apply (Sorted_fmap phrase (λ a b, String.leb (phrase a) (phrase b) = true)).
  - apply NoDup_Permutation; [done|done|]. intros x. split.
    + intros (r & -> & Hr)%list_elem_of_fmap. destruct (Hfrom r Hr) as [Hin _].
      apply Hall'. by rewrite <- Hperm.
    + intros (r & -> & Hr)%list_elem_of_fmap. destruct (Hfrom' r Hr) as [Hin _].
      apply Hall. by rewrite Hperm.
Qed.

Lemma best_phrases_order_independent_witness :
  phrase <$> best_phrases
    [ {| phrase := "hi"; decoded_root_note := "C"; decoded_scale := "Major"; num_words := 1 |};
      {| phrase := "a i"; decoded_root_note := "D"; decoded_scale := "Dorian"; num_words := 2 |} ]
  = phrase <$> best_phrases
    [ {| phrase := "a i"; decoded_root_note := "D"; decoded_scale := "Dorian"; num_words := 2 |};
      {| phrase := "hi"; decoded_root_note := "C"; decoded_scale := "Major"; num_words := 1 |} ].
Proof.
  apply best_phrases_order_independent. apply Permutation_swap.
Defined.

Lemma min_num_words_spec (r : ResultRecord) (rs : list ResultRecord) :
  (∀ x, x ∈ r :: rs → AudiocipherDecoder.min_num_words r rs ≤ num_words x) ∧
  (∃ x, x ∈ r :: rs ∧ num_words x = AudiocipherDecoder.min_num_words r rs).
Proof.
  unfold AudiocipherDecoder.min_num_words.
  assert (Hgen : ∀ (m : nat) (l : list ResultRecord),
            let m' := foldl (λ m r', Nat.min m (num_words r')) m l in
            m' ≤ m ∧ (∀ x, x ∈ l → m' ≤ num_words x) ∧
            (m' = m ∨ ∃ x, x ∈ l ∧ num_words x = m')).
  { intros m l. revert m. induction l as [|y l IH]; intros m; cbn zeta.
    - simpl. split; [lia|]. split; [by intros x ?%elem_of_nil|by left].
    - cbn [foldl]. destruct (IH (Nat.min m (num_words y))) as (Hle & Hall & Hatt).
      cbn zeta in *. split; [lia|]. split.
      + intros x [->|Hx]%elem_of_cons; [lia|by apply Hall].
      + destruct Hatt as [Heq|(x & Hx & Hnum)].
        * destruct (Nat.min_spec m (num_words y)) as [[_ Hm]|[_ Hm]].
          -- left. by rewrite Hm in Heq |- *.
          -- right. exists y. split; [left|]. rewrite Heq. done.
        * right. exists x. split; [by right|done]. }
  destruct (Hgen (num_words r) rs) as (Hle & Hall & Hatt). cbn zeta in *. split.
  - intros x [->|Hx]%elem_of_cons; [done|by apply Hall].
  - destruct Hatt as [Heq|(x & Hx & Hnum)].
    + exists r. split; [left|done].
    + exists x. split; [by right|done].
Qed.

(** X17. What [audiocipher_decoder.py] prints: records of the results that
    have the fewest words of all the results, at most one for each phrase,
    root and scale; at least one record is printed when there is a result. *)
Theorem audiocipher_best_phrases_minimum (flat_results : list ResultRecord) :
  (∀ r, r ∈ AudiocipherDecoder.best_phrases flat_results →
     r ∈ flat_results ∧ ∀ r', r' ∈ flat_results → num_words r ≤ num_words r') ∧
  NoDup ((λ r, (phrase r, decoded_root_note r, decoded_scale r))
           <$> AudiocipherDecoder.best_phrases flat_results) ∧
  (flat_results ≠ [] → AudiocipherDecoder.best_phrases flat_results ≠ []).
Proof.
  destruct (unique_by_spec (λ r, (phrase r, decoded_root_note r, decoded_scale r))
              flat_results) as (Hnd & Hinv & Hkeys). cbn zeta in *.
  unfold AudiocipherDecoder.best_phrases, AudiocipherDecoder.result_key.
  change (foldl AudiocipherDecoder.unique_step [] flat_results)
    with (foldl (unique_by (λ r, (phrase r, decoded_root_note r, decoded_scale r)))
            [] flat_results).
  set (d := foldl (unique_by (λ r, (phrase r, decoded_root_note r, decoded_scale r)))
              [] flat_results) in *.
  assert (Hkeyv : (λ r, (phrase r, decoded_root_note r, decoded_scale r)) <$> dict_values d
                  = d.*1).
  { apply unique_values_keys. intros k v Hin. by destruct (Hinv k v Hin). }
  destruct (dict_values d) as [|v vs] eqn:Hvals.
  - split; [by intros r ?%elem_of_nil|]. split; [constructor|].
    intros Hne. destruct flat_results as [|r rs]; [done|].
    specialize (Hkeys r ltac:(left)). rewrite <- Hkeyv in Hkeys. by apply elem_of_nil in Hkeys.
  - destruct (min_num_words_spec v vs) as [Hmin (x & Hx & Hatt)].
    cbn zeta. split; [|split].
    + intros r [Hnum Hr]%list_elem_of_filter.
      rewrite <- Hvals in Hr. apply elem_of_dict_values in Hr as [k Hin].
      destruct (Hinv k r Hin) as (_ & Hfrom & _). split; [done|].
      intros r' Hr'. specialize (Hkeys r' Hr'). rewrite <- Hkeyv in Hkeys.
      apply list_elem_of_fmap in Hkeys as (v' & Hkey' & Hv').
      assert (Hv'' := Hv'). rewrite <- Hvals in Hv''.
      apply elem_of_dict_values in Hv'' as [k' Hin'].
      destruct (Hinv k' v' Hin') as (Hk' & _ & Hleast).
      specialize (Hmin v' Hv').
      specialize (Hleast r' Hr' ltac:(congruence)). lia.
    + rewrite <- Hkeyv in Hnd.
      eapply sublist_NoDup; [exact Hnd|]. apply fmap_sublist, sublist_filter.
    + intros _ Hempty.
      assert (Hin : x ∈ filter (λ r', num_words r' = AudiocipherDecoder.min_num_words v vs)
                        (v :: vs)) by (by apply list_elem_of_filter).
      rewrite Hempty in Hin. by apply elem_of_nil in Hin.
Qed.

(** ** The work items *)

Lemma decode_melody_lengths (enh : string → option string) (ntl : gmap string (list ascii))
    (melody : list string) (c : list ascii) :
  c ∈ decode_melody enh ntl melody → length c = length melody.
Proof.
  unfold decode_melody.
  destruct (decide ([] ∈ letter_pools enh ntl melody)) as [Hin|Hnin].
  - rewrite collect_letters_none by done. by intros ?%elem_of_nil.
  - rewrite collect_letters_some by done. simpl. intros Hc%elem_of_product.
    apply Forall2_length in Hc. unfold letter_pools in Hc. by rewrite length_fmap in Hc.
Qed.

Lemma candidate_step_records (root mode : string) (W P : gset string) (mwl : Z)
    (N E : gset string) (Q : ResultRecord → Prop)
    (results : list ResultRecord) (c : list ascii) :
  (∀ words, words ≠ [] → segment_into_words c W P mwl = Some words →
            is_valid_phrase words N E = true →
            Q {| phrase := phrase_text words; decoded_root_note := root;
                 decoded_scale := mode; num_words := length words |}) →
  Forall Q results →
  Forall Q (candidate_step root mode W P mwl N E results c).
Proof.
  intros Hnew Hres. unfold candidate_step.
  destruct (segment_into_words c W P mwl) as [[|w ws]|] eqn:Hseg; try done.
  destruct (is_valid_phrase _ _ _) eqn:Hvalid; [|done].
  apply Forall_app. split; [done|]. apply Forall_singleton. by apply Hnew.
Qed.

Lemma process_root_mode_records_aux (enh : string → option string) (root mode : string)
    (class : string → option Scale) (melody : list string) (W P : gset string) (mwl : Z)
    (N E : gset string) (Q : ResultRecord → Prop) :
  (∀ c words, length c = length melody → words ≠ [] →
              segment_into_words c W P mwl = Some words →
              is_valid_phrase words N E = true →
              Q {| phrase := phrase_text words; decoded_root_note := root;
                   decoded_scale := mode; num_words := length words |}) →
  Forall Q (process_root_mode enh (root, mode, class) melody W P mwl N E).
Proof.
  intros Hnew. unfold process_root_mode.
  destruct (class root) as [sc|]; [|constructor].
  destruct (create_letter_note_mapping sc) as [[|kv mapping]| |]; try constructor.
  pose proof (decode_melody_lengths enh (reverse_mapping (kv :: mapping)) melody) as Hlen.
  destruct (decode_melody _ _ _) as [|c cs]; [constructor|].
  assert (Hfold : ∀ l results, (∀ c', c' ∈ l → length c' = length melody) →
            Forall Q results →
            Forall Q (foldl (candidate_step root mode W P mwl N E) results l)).
  { induction l as [|c' l IH]; intros results Hl Hres; [exact Hres|].
    cbn [foldl]. apply IH; [intros c'' Hc''; apply Hl; by right|].
    apply candidate_step_records; [|done]. intros words. apply Hnew. apply Hl. left. }
  apply Hfold; [done|constructor].
Qed.

(** X18. Every record of a work item carries the root and the mode name of
    the work item; its phrase is the words of a segmentation joined by
    spaces and its word count is their number, at least one and at most the
    number of notes; the words are members of the word set, pass
    [is_valid_phrase], and spell as many letters as the melody has notes. *)
Theorem process_root_mode_records (enh : string → option string) (root mode : string)
    (class : string → option Scale) (melody : list string) (W P : gset string) (mwl : Z)
    (N E : gset string) (r : ResultRecord) :
  r ∈ process_root_mode enh (root, mode, class) melody W P mwl N E →
  decoded_root_note r = root ∧ decoded_scale r = mode ∧
  ∃ words, phrase r = phrase_text words ∧ num_words r = length words ∧
    1 ≤ length words ≤ length melody ∧
    Forall (λ w, w ∈ W) words ∧ is_valid_phrase words N E = true ∧
    String.length (join_words words) = length melody.
Proof.
  revert r. apply Forall_forall.
  apply (process_root_mode_records_aux enh root mode class melody W P mwl N E
    (λ r, decoded_root_note r = root ∧ decoded_scale r = mode ∧
          ∃ words, phrase r = phrase_text words ∧ num_words r = length words ∧
            1 ≤ length words ≤ length melody ∧
            Forall (λ w, w ∈ W) words ∧ is_valid_phrase words N E = true ∧
            String.length (join_words words) = length melody)).
  intros c words Hc Hne Hseg Hvalid. simpl. split; [done|]. split; [done|].
  exists words. split; [done|]. split; [done|].
  destruct (segment_into_words_words c W P mwl words Hseg) as (_ & Hcat & Hle).
  destruct (segment_into_words_sound c W P mwl words Hseg) as [Hall _].
  split; [|split; [done|split; [done|]]].
  - split; [destruct words; [done|simpl; lia]|lia].
  - by rewrite Hcat, join_chars_length.
Qed.

Lemma process_root_mode_records_witness :
  decoded_root_note {| phrase := "a i"; decoded_root_note := "C"; decoded_scale := "Major";
                       num_words := 2 |} = "C" ∧
  decoded_scale {| phrase := "a i"; decoded_root_note := "C"; decoded_scale := "Major";
                   num_words := 2 |} = "Major" ∧
  ∃ words, "a i" = phrase_text words ∧ 2 = length words ∧
    1 ≤ length words ≤ length ["C"; "D"] ∧
    Forall (λ w, w ∈ ({[ "a"; "i"; "hi" ]} : gset string)) words ∧
    is_valid_phrase words ∅ {[ "a"; "i"; "hi" ]} = true ∧
    String.length (join_words words) = length ["C"; "D"].
Proof.
  apply (process_root_mode_records enharmonic_name "C" "Major" MajorScale ["C"; "D"]
           {[ "a"; "i"; "hi" ]} ∅ 2 ∅ {[ "a"; "i"; "hi" ]}
           {| phrase := "a i"; decoded_root_note := "C"; decoded_scale := "Major";
              num_words := 2 |}).
  vm_compute. left.
Defined.

(** X19. A work item yields no record, and raises nothing, when the scale
    class raises, when a degree of the scale raises, or when some note of
    the melody has no letter in the scale, directly or by its enharmonic
    spelling. *)
Theorem process_root_mode_no_candidates (enh : string → option string) (root mode : string)
    (class : string → option Scale) (melody : list string) (W P : gset string) (mwl : Z)
    (N E : gset string) :
  (class root = None ∨
   (∃ sc d, class root = Some sc ∧ d ∈ degrees ∧ pitchFromDegree sc d = None) ∨
   (∃ sc mapping n, class root = Some sc ∧ create_letter_note_mapping sc = Returned mapping ∧
      n ∈ melody ∧ letters_of_note enh (reverse_mapping mapping) n = [])) →
  process_root_mode enh (root, mode, class) melody W P mwl N E = [].
Proof.
  unfold process_root_mode.
  intros [->|[(sc & d & -> & Hd & Hnone)|(sc & mapping & n & -> & -> & Hn & Hletters)]].
  - done.
  - by rewrite (create_letter_note_mapping_raise sc d Hd Hnone).
  - destruct mapping as [|kv mapping]; [done|].
    assert (Hempty : decode_melody enh (reverse_mapping (kv :: mapping)) melody = []).
    { unfold decode_melody. rewrite collect_letters_none; [done|].
      unfold letter_pools. apply list_elem_of_fmap. by exists n. }
    by rewrite Hempty.
Qed.

Lemma process_root_mode_no_candidates_witness :
  process_root_mode enharmonic_name ("C", "Major", MajorScale) ["C"; "C#"]
    {[ "a"; "i"; "hi" ]} ∅ 2 ∅ {[ "a"; "i"; "hi" ]} = [].
Proof.
  apply (process_root_mode_no_candidates enharmonic_name "C" "Major" MajorScale ["C"; "C#"]).
  right. right.
  exists c_major, (zip ascii_lowercase
      (concat (replicate 3 ["C"; "D"; "E"; "F"; "G"; "A"; "B"]) ++ ["C"; "D"; "E"; "F"; "G"])),
    "C#".
  split; [reflexivity|]. split; [vm_compute; reflexivity|].
  split; [right; left|vm_compute; reflexivity].
Defined.

(** ** The tone row and the run of [main] *)

Lemma split_chars_token (tok rest cur : list ascii) :
  Forall (λ c, is_space c = false) tok →
  split_chars (tok ++ rest) cur = split_chars rest (cur ++ tok).
Proof.
  intros Htok. revert cur. induction Htok as [|c tok Hc _ IH]; intros cur; simpl.
  - by rewrite app_nil_r.
  - rewrite Hc, IH. by rewrite <- app_assoc.
Qed.

Lemma chars_concat_cons (n n' : string) (ns : list string) :
  chars (String.concat " " (n :: n' :: ns))
  = chars n ++ " "%char :: chars (String.concat " " (n' :: ns)).
Proof.
  change (String.concat " " (n :: n' :: ns))
    with (n +:+ " " +:+ String.concat " " (n' :: ns)).
  by rewrite !chars_app.
Qed.

Lemma split_tone_row_of_names (names : list string) :
  Forall (λ n, n ≠ "" ∧ Forall (λ c, is_space c = false) (chars n)) names →
  split (tone_row_of_names names) = names.
Proof.
  unfold split, tone_row_of_names.
  induction 1 as [|n names [Hne Hn] Hnames IH]; [done|].
  assert (Hcur : ∀ rest, split_chars rest (chars n)
            = match rest with
              | [] => [n]
              | c :: rest' =>
                  if is_space c then n :: split_chars rest' []
                  else split_chars rest' (chars n ++ [c])
              end).
  { intros rest. destruct (chars n) as [|c0 cs0] eqn:Hchars.
    - destruct n; [done|discriminate].
    - rewrite <- Hchars. destruct rest as [|c rest']; simpl; rewrite Hchars, <- Hchars;
        by rewrite ?join_chars_chars. }
  destruct names as [|n' names].
  - change (String.concat " " [n]) with n.
    replace (chars n) with (chars n ++ []) at 1 by apply app_nil_r.
    rewrite split_chars_token by done. by rewrite app_nil_l, Hcur.
  - rewrite chars_concat_cons, split_chars_token by done.
    rewrite app_nil_l, Hcur. change (is_space " ") with true. cbn iota. by rewrite IH.
Qed.

(** X20. The tone row that [midi_to_tone_row] writes is read back by
    [decode_tone_row_parallel] as the same note names: splitting the names
    joined by spaces and putting them in upper case gives the names again,
    when each name is not empty, has no white space and is in upper case. *)
Theorem tone_row_round_trip (note_names : list string) :
  Forall note_token note_names →
  upper <$> split (tone_row_of_names note_names) = note_names.
Proof.
  intros Htok. rewrite split_tone_row_of_names.
  - induction Htok as [|n ns (_ & _ & Hup) _ IH]; [done|]. rewrite fmap_cons. by rewrite Hup, IH.
  - eapply Forall_impl; [done|]. by intros n (? & ? & _).
Qed.

Lemma tone_row_round_trip_witness :
  upper <$> split (tone_row_of_names ["C#"; "E-"; "B"]) = ["C#"; "E-"; "B"].
Proof.
  apply tone_row_round_trip.
  repeat (constructor; [split; [done|split; [|vm_compute; reflexivity]];
                        repeat constructor|]).
  constructor.
Defined.

Lemma all_root_modes_length (modes : dict string (string → option Scale)) :
  length (all_root_modes modes) = 12 * length modes.
Proof.
  unfold all_root_modes, root_notes. cbn [mbind list_bind].
  rewrite !length_app, !length_fmap. simpl. lia.
Qed.

Lemma report_not_starting (flat_results : list ResultRecord) (k : nat) :
  InfoStarting k ∉ report flat_results.
Proof.
  unfold report. destruct (foldl unique_step [] flat_results).
  - by intros ?%list_elem_of_singleton.
  - intros [?|Hin]%elem_of_cons; [done|].
    by apply list_elem_of_fmap in Hin as (r & ? & _).
Qed.

Lemma validate_notes_error (enh : string → option string) (notes : list string) (e : event) :
  validate_notes enh notes = inl e → e ≠ ErrorNoWords.
Proof.
  induction notes as [|n notes IH]; simpl; [done|].
  destruct (bool_decide (n ∈ valid_note_names)).
  - destruct (validate_notes enh notes) as [e'|rest]; [|done]. intros [= ->]. by apply IH.
  - destruct (enh n) as [name|]; [|by intros [= <-]].
    destruct (bool_decide (name ∈ valid_note_names)); [|by intros [= <-]].
    destruct (validate_notes enh notes) as [e'|rest]; [|done]. intros [= ->]. by apply IH.
Qed.

(** X21. [main] stops with the error of an empty lexicon exactly when both
    the word list and the name list are empty. It dispatches work only with
    a lexicon that is not empty and a tone row whose tokens all pass the
    validation, and then it dispatches 12 work items for each mode of the
    catalog. *)
Theorem main_for_tone_row_dispatch (enh : string → option string)
    (modes : dict string (string → option Scale)) (tone_row : string) (E N : gset string) :
  (main_for_tone_row enh modes tone_row E N = [ErrorNoWords] ↔ E = ∅ ∧ N = ∅) ∧
  (∀ k, InfoStarting k ∈ main_for_tone_row enh modes tone_row E N →
        k = 12 * length modes ∧ ¬ (E = ∅ ∧ N = ∅) ∧
        Forall (token_ok enh) (upper <$> split tone_row)) ∧
  (¬ (E = ∅ ∧ N = ∅) → Forall (token_ok enh) (upper <$> split tone_row) →
   dispatched (main_for_tone_row enh modes tone_row E N)).
Proof.
  unfold main_for_tone_row.
  destruct (bool_decide (E = ∅) && bool_decide (N = ∅)) eqn:Hempty.
  - apply andb_prop in Hempty as [HE%bool_decide_eq_true HN%bool_decide_eq_true].
    split; [by split|]. split; [by intros k ?%list_elem_of_singleton|]. by intros [].
  - assert (Hne : ¬ (E = ∅ ∧ N = ∅)).
    { intros [HE HN]. by rewrite !bool_decide_eq_true_2 in Hempty. }
    cbn zeta. unfold decode_tone_row_parallel. cbn zeta.
    destruct (validate_notes enh (upper <$> split tone_row)) as [e|notes] eqn:Hv.
    + destruct (validate_notes_inl _ _ _ Hv) as [He Hbad].
      split; [|split].
      * split; [intros [= ->]; by apply validate_notes_error in Hv|tauto].
      * intros k Hk%list_elem_of_singleton. by subst e.
      * intros _ Hok. exfalso. apply Exists_exists in Hbad as (n & Hn & Hbad).
        rewrite Forall_forall in Hok. by apply Hbad, Hok.
    + split; [|split].
      * split; [done|tauto].
      * intros k [Hk|Hk]%elem_of_cons.
        -- injection Hk as ->. split; [apply all_root_modes_length|]. split; [done|].
           apply validate_notes_inr in Hv. apply Forall_forall. intros n Hn.
           apply list_elem_of_lookup in Hn as [i Hi].
           destruct (Forall2_lookup_l _ _ _ _ _ Hv Hi) as (n' & _ & Hn' & Hcase).
           destruct Hcase as [->|[_ Henh]]; [by left|]. right. eauto.
        -- apply elem_of_cons in Hk as [?|Hk]; [done|]. by apply report_not_starting in Hk.
      * intros _ _. eexists. left.
Qed.
